(** * Timeslots: the interval store, day-scoped persistence, colour
      derivation and time strings of [src/App.tsx]

    The development embeds the pure and the stateful functions of the
    application core and proves the properties the specification states about
    them.

    Modelling conventions.
    - JavaScript numbers that hold seconds, dates and array indices are
      integers ([Z], indices [nat]); the 32-bit coercions of the bit operators
      are written out where the source uses them on data ([colorFromName]).
      In [addRangeNoOverlap] the operands of [(lo + hi) >> 1] are array
      indices, so the shift is the plain halving [Nat.shiftr _ 1].
    - Timeslot objects live in a heap and arrays hold references to them: the
      source copies the array ([list.slice()]) but shares its elements.
    - JSON data is a value type [jsval]; objects are association lists in
      property order.
    - [JSON.parse], [JSON.stringify] are platform functions: an interface
      ([JSON]) whose contract appears as explicit hypotheses. *)

From Stdlib Require Import ZArith List String Ascii Bool Lia Sorted.
From stdpp Require Import base list sorting strings gmap pretty.
From Equations Require Import Equations.
Import ListNotations.

Set Warnings "-register-all".

Local Open Scope string_scope.
Local Open Scope list_scope.
Local Open Scope Z_scope.

(* ===================================================================== *)
(** * JavaScript values *)
(* ===================================================================== *)

(** The values JSON can carry.  [undefined] is the [None] of [option jsval]. *)
Inductive jsval : Type :=
| JNull
| JBool (b : bool)
| JNum (n : Z)
| JStr (s : string)
| JArr (items : list jsval)
| JObj (fields : list (string * jsval)).

Definition jsobject : Type := list (string * jsval).

(** [o[key]] on a plain object: the first binding of the key. *)
Fixpoint obj_get (key : string) (o : jsobject) : option jsval :=
  match o with
  | [] => None
  | (k, v) :: rest => if String.eqb k key then Some v else obj_get key rest
  end.

(** [{...o, key: v}]: an existing key keeps its position, a new one is
    appended. *)
Fixpoint obj_set (key : string) (v : jsval) (o : jsobject) : jsobject :=
  match o with
  | [] => [(key, v)]
  | (k, w) :: rest =>
      if String.eqb k key then (k, v) :: rest else (k, w) :: obj_set key v rest
  end.

(** [v?.key] and [v.key] on a value that is not nullish: only a plain object
    has named properties here. *)
Definition get_prop (v : jsval) (key : string) : option jsval :=
  match v with
  | JObj o => obj_get key o
  | _ => None
  end.

(** [!v] is [negb (truthy v)]. *)
Definition truthy (v : jsval) : bool :=
  match v with
  | JNull => false
  | JBool b => b
  | JNum n => negb (n =? 0)
  | JStr s => negb (String.eqb s EmptyString)
  | JArr _ | JObj _ => true
  end.

(** [typeof v === "string"], [v] possibly undefined. *)
Definition is_string (v : option jsval) : bool :=
  match v with
  | Some (JStr _) => true
  | _ => false
  end.

(** [a === b] on possibly undefined values.  Primitives compare by value;
    arrays and objects compare by identity, which two separately built
    values never share. *)
Definition strict_eq (a b : option jsval) : bool :=
  match a, b with
  | None, None => true
  | Some JNull, Some JNull => true
  | Some (JBool x), Some (JBool y) => Bool.eqb x y
  | Some (JNum x), Some (JNum y) => x =? y
  | Some (JStr x), Some (JStr y) => String.eqb x y
  | _, _ => false
  end.

(** [{...v}]: the own properties of an object. *)
Definition spread (v : jsval) : jsobject :=
  match v with
  | JObj o => o
  | _ => []
  end.

(* ===================================================================== *)
(** * Dates and ranges *)
(* ===================================================================== *)

(** The local calendar reading of a [Date]. *)
Record Date : Type := {
  getDate : Z;
  getMonth : Z;
  getFullYear : Z
}.

Definition getTodayArray (now : Date) : Z * Z * Z :=
  (getDate now, getMonth now, getFullYear now).

Definition date_value (d : Z * Z * Z) : jsval :=
  let '(day, month, year) := d in JArr [JNum day; JNum month; JNum year].

Definition isSameDate (a : option jsval) (b : Z * Z * Z) : bool :=
  let '(b0, b1, b2) := b in
  match a with
  | Some (JArr [a0; a1; a2]) =>
      strict_eq (Some a0) (Some (JNum b0))
      && strict_eq (Some a1) (Some (JNum b1))
      && strict_eq (Some a2) (Some (JNum b2))
  | _ => false
  end.

Definition makeDefaultTimeslots (now : Date) : jsobject :=
  [("date", date_value (getTodayArray now)); ("timeslots", JArr [])].

Definition normalizeRange (start end_ : Z) : Z * Z :=
  let '(s, e) := if end_ <? start then (end_, start) else (start, end_) in
  let s := Z.max 0 (Z.min 86399 s) in
  let e := Z.max 0 (Z.min 86399 e) in
  (s, e).

(* ===================================================================== *)
(** * Colour derivation *)
(* ===================================================================== *)

(** [ToInt32]: the signed 32-bit value congruent to [x]. *)
Definition ToInt32 (x : Z) : Z := (x + 2 ^ 31) mod 2 ^ 32 - 2 ^ 31.

(** [x << k] for [0 <= k < 32]. *)
Definition js_shl (x : Z) (k : Z) : Z := ToInt32 (Z.shiftl (ToInt32 x) k).

(** [x ^ y]. *)
Definition js_xor (x y : Z) : Z := Z.lxor (ToInt32 x) (ToInt32 y).

(** One round of the loop body: [h = ((h << 5) + h) ^ name.charCodeAt(i)]. *)
Definition hash_step (h code : Z) : Z := js_xor (js_shl h 5 + h) code.

(** The loop over the UTF-16 code units of the name, from the seed [h]. *)
Definition hash_from (h : Z) (name : list Z) : Z := fold_left hash_step name h.

Definition name_hash (name : list Z) : Z := hash_from 5381 name.

Record Hsla : Type := {
  hue : Z;
  saturation : Z;
  lightness : Z;
  alpha : string
}.

(** The four constants the function computes: [hue] and the tuning knobs.
    A JavaScript string is given by its UTF-16 code units; [isRunning] is the
    optional third argument, [false] when omitted. *)
Definition colorParts (name : list Z) (isPast isRunning : bool) : Hsla :=
  let h := name_hash name in
  {| hue := Z.abs h mod 360;
     saturation := if isRunning then 5 else if isPast then 15 else 70;
     lightness := if isRunning then 30 else if isPast then 25 else 55;
     alpha := if isRunning then "0.8" else if isPast then "0.35" else "0.7" |}.

(** The template literal [hsla(h, s%, l%, a)]. *)
Definition css (c : Hsla) : string :=
  ("hsla(" ++ pretty (hue c) ++ ", " ++ pretty (saturation c) ++ "%, "
   ++ pretty (lightness c) ++ "%, " ++ alpha c ++ ")")%string.

Definition colorFromName (name : list Z) (isPast isRunning : bool) : string :=
  css (colorParts name isPast isRunning).

(** The code units of a string of one-byte characters. *)
Definition code_units (s : string) : list Z :=
  map (fun c => Z.of_N (N_of_ascii c)) (list_ascii_of_string s).

(* ===================================================================== *)
(** * The interval store *)
(* ===================================================================== *)

Record TimeslotRange : Type := {
  start : Z;
  end_ : Z;
  meta : jsval
}.

(** ** Heap of timeslot objects, and computations that may throw *)

(** References are heap addresses; a heap is the sequence of its objects. *)
Abbreviation loc := nat (only parsing).
Abbreviation heap := (list TimeslotRange) (only parsing).

Inductive exn : Type :=
| TypeError (msg : string)
| Error (msg : string).

Inductive outcome (A : Type) : Type :=
| Ok (a : A)
| Throw (e : exn).
Arguments Ok {A} a.
Arguments Throw {A} e.

(** A computation reads and writes the heap; an exception leaves the heap as
    it is at the point of the throw. *)
Definition M (A : Type) : Type := heap -> outcome A * heap.

Definition ret {A} (a : A) : M A := fun h => (Ok a, h).

Definition throw {A} (e : exn) : M A := fun h => (Throw e, h).

Definition bind {A B} (c : M A) (k : A -> M B) : M B :=
  fun h =>
    match c h with
    | (Ok a, h') => k a h'
    | (Throw e, h') => (Throw e, h')
    end.

Notation "x <- c ;; k" := (bind c (fun x => k))
  (at level 100, c at next level, right associativity).
Notation "c ;;; k" := (bind c (fun _ => k))
  (at level 100, right associativity).

(** Reading a property of [undefined]. *)
Definition undefined_read : exn :=
  TypeError "Cannot read properties of undefined".

(** [{ start, end, meta }]: a new object. *)
Definition alloc (r : TimeslotRange) : M loc :=
  fun h => (Ok (length h), (h ++ [r])%list).

(** The fields of the object behind a reference. *)
Definition load (l : loc) : M TimeslotRange :=
  fun h =>
    match h !! l with
    | Some r => (Ok r, h)
    | None => (Throw undefined_read, h)
    end.

(** [a.end = v]. *)
Definition store_end (l : loc) (v : Z) : M unit :=
  fun h =>
    match h !! l with
    | Some r =>
        (Ok tt, <[l := {| start := start r; end_ := v; meta := meta r |}]> h)
    | None => (Throw undefined_read, h)
    end.

(** [arr[i]], about to be dereferenced. *)
Definition elem (arr : list loc) (i : nat) : M loc :=
  fun h =>
    match arr !! i with
    | Some l => (Ok l, h)
    | None => (Throw undefined_read, h)
    end.

(** [arr[i]] with its fields. *)
Definition entry (arr : list loc) (i : nat) : M TimeslotRange :=
  l <- elem arr i ;; load l.

(** [list[i].start] as the search loop reads it. *)
Definition startAt (h : heap) (list : list loc) (i : nat) : outcome Z :=
  match entry list i h with
  | (Ok r, _) => Ok (start r)
  | (Throw e, _) => Throw e
  end.

(** ** Insertion position

    [while (lo < hi) { mid = (lo + hi) >> 1;
                       if (list[mid].start <= s) lo = mid + 1; else hi = mid; }]
    The loop only reads; [read i] is [list[i].start]. *)
Equations? findInsertPos (read : nat -> outcome Z) (s : Z) (lo hi : nat)
  : outcome nat by wf (hi - lo)%nat lt :=
  findInsertPos read s lo hi with lt_dec lo hi => {
    | right _ := Ok lo
    | left _ with read (Nat.shiftr (lo + hi) 1) => {
        | Throw e := Throw e
        | Ok st with st <=? s => {
            | true := findInsertPos read s (Nat.shiftr (lo + hi) 1 + 1) hi
            | false := findInsertPos read s lo (Nat.shiftr (lo + hi) 1) } } }.
Proof.
  all: pose proof (Nat.div2_odd (lo + hi)) as Hhalf.
  all: destruct (Nat.odd (lo + hi)); simpl Nat.b2n in Hhalf; lia.
Qed.

Definition search (list : list loc) (s : Z) : M nat :=
  fun h =>
    match findInsertPos (startAt h list) s 0 (length list) with
    | Ok pos => (Ok pos, h)
    | Throw e => (Throw e, h)
    end.

(** ** Merging two neighbours *)

(** [a.end + 1 === b.start && a.meta?.name === b.meta?.name]. *)
Definition joins (a b : TimeslotRange) : bool :=
  (end_ a + 1 =? start b)
  && strict_eq (get_prop (meta a) "name") (get_prop (meta b) "name").

(** The object [a] after [a.end = b.end]. *)
Definition extend (a b : TimeslotRange) : TimeslotRange :=
  {| start := start a; end_ := end_ b; meta := meta a |}.

(** [a = next[i]; b = next[i + 1];
     if (a.end + 1 === b.start && a.meta?.name === b.meta?.name)
       { a.end = b.end; next.splice(i + 1, 1); }]
    The result is the array after the splice, [None] when nothing merged. *)
Definition mergeNeighbours (next : list loc) (i : nat) : M (option (list loc)) :=
  a <- elem next i ;;
  b <- elem next (i + 1) ;;
  ra <- load a ;;
  rb <- load b ;;
  if joins ra rb
  then store_end a (end_ rb) ;;; ret (Some (delete (i + 1)%nat next))
  else ret None.

(** [if (pos > 0) { a = next[pos - 1]; b = next[pos]; if (...) { ...; pos--; } }]:
    the array and the position after the left merge. *)
Definition mergeLeft (next : list loc) (pos : nat) : M (list loc * nat) :=
  if (0 <? pos)%nat
  then merged <- mergeNeighbours next (pos - 1) ;;
       ret (match merged with
            | Some next' => (next', (pos - 1)%nat)
            | None => (next, pos)
            end)
  else ret (next, pos).

(** [if (pos < next.length - 1) { a = next[pos]; b = next[pos + 1]; ... }]. *)
Definition mergeRight (next : list loc) (pos : nat) : M (list loc) :=
  if (pos <? length next - 1)%nat
  then merged <- mergeNeighbours next pos ;; ret (default next merged)
  else ret next.

(** ** Overlap checks

    [if (pos > 0 && list[pos - 1].end >= s) throw ...] and
    [if (pos < list.length && list[pos].start <= e) throw ...]. *)
Definition checkPrevious (list : list loc) (pos : nat) (s : Z) : M unit :=
  if (0 <? pos)%nat
  then a <- entry list (pos - 1) ;;
       if s <=? end_ a then throw (Error "overlap with previous range") else ret tt
  else ret tt.

Definition checkNext (list : list loc) (pos : nat) (e : Z) : M unit :=
  if (pos <? length list)%nat
  then b <- entry list pos ;;
       if start b <=? e then throw (Error "overlap with next range") else ret tt
  else ret tt.

(** ** [addRangeNoOverlap] *)
Definition addRangeNoOverlap (list : list loc) (start' end' : Z) (meta' : jsval)
  : M (Datatypes.list loc) :=
  if negb (truthy meta') || negb (is_string (get_prop meta' "name")) then
    throw (TypeError "meta must be an object with meta.name (string)")
  else
    let '(s, e) := normalizeRange start' end' in
    (* find insert position: first item with start > s *)
    pos <- search list s ;;
    (* overlap checks *)
    checkPrevious list pos s ;;;
    checkNext list pos e ;;;
    (* next = list.slice(); next.splice(pos, 0, { start: s, end: e, meta }) *)
    fresh <- alloc {| start := s; end_ := e; meta := meta' |} ;;
    let next := (take pos list ++ fresh :: drop pos list)%list in
    (* merge left, then merge right, if contiguous and same meta.name *)
    left <- mergeLeft next pos ;;
    mergeRight (fst left) (snd left).

(** The entries an array of references denotes in a heap. *)
Definition array_is (h : heap) (arr : list loc) (rs : list TimeslotRange) : Prop :=
  Forall2 (fun l r => h !! l = Some r) arr rs.

(** The entries of an array, when every reference is live. *)
Definition contents (h : heap) (arr : list loc) : option (list TimeslotRange) :=
  mapM (fun l => h !! l) arr.

(** A computation run from a heap: the entries of the returned array. *)
Definition run_contents (c : M (list loc)) (h : heap)
  : outcome (list TimeslotRange) :=
  match c h with
  | (Ok arr, h') =>
      match contents h' arr with
      | Some rs => Ok rs
      | None => Throw undefined_read
      end
  | (Throw e, _) => Throw e
  end.

(* ===================================================================== *)
(** * Day-scoped persistence *)
(* ===================================================================== *)

(** The platform's JSON functions.  [JSON_parse] is [None] where
    [JSON.parse] throws a [SyntaxError]. *)
Class JSON : Type := {
  JSON_parse : string -> option jsval;
  JSON_stringify : jsval -> string
}.

(** What the persistence code reads and writes: the key-value storage and the
    two pieces of view state that [writeStore] sets. *)
Record AppState : Type := {
  localStorage : gmap string string;
  timeslotsDebug : string;
  timeslots : jsval
}.

(** [v ?? d]. *)
Definition nullish_or (v : option jsval) (d : jsval) : jsval :=
  match v with
  | None | Some JNull => d
  | Some w => w
  end.

Section Persistence.
Context `{JSON}.

(** The body of the [try]: a [SyntaxError] of [JSON.parse] is caught and
    answered with [reset()]. *)
Definition readStoreForToday (storage : gmap string string) (now : Date)
  : jsobject :=
  let today := getTodayArray now in
  let reset := makeDefaultTimeslots now in
  match storage !! "timeslots" with
  | None => reset
  | Some raw =>
      if String.eqb raw EmptyString then reset
      else
        match JSON_parse raw with
        | None => reset
        | Some parsed =>
            if negb (isSameDate (get_prop parsed "date") today) then reset
            else
              let timeslots :=
                match get_prop parsed "timeslots" with
                | Some (JArr items) => JArr items
                | _ => JArr []
                end in
              obj_set "timeslots" timeslots
                (obj_set "date" (date_value today) (spread parsed))
        end
  end.

Definition writeStore (store : jsobject) (st : AppState) : AppState :=
  let raw := JSON_stringify (JObj store) in
  {| localStorage := <["timeslots" := raw]> (localStorage st);
     timeslotsDebug := raw;
     timeslots := nullish_or (obj_get "timeslots" store) (JArr []) |}.

End Persistence.

(* ===================================================================== *)
(** * Time strings *)
(* ===================================================================== *)

Definition is_digit (c : ascii) : bool :=
  ((48 <=? N_of_ascii c) && (N_of_ascii c <=? 57))%N.

Definition digit_value (c : ascii) : Z := Z.of_N (N_of_ascii c) - 48.

(** The atoms of the pattern: [\d] and a literal character. *)
Inductive atom : Type :=
| Digit
| Lit (c : ascii).

Definition atom_accepts (a : atom) (c : ascii) : bool :=
  match a with
  | Digit => is_digit c
  | Lit d => Ascii.eqb c d
  end.

(** Match a sequence of atoms at the head of the text: the matched prefix
    and the rest. *)
Fixpoint match_atoms (p : list atom) (text : string) : option (string * string) :=
  match p with
  | [] => Some (EmptyString, text)
  | a :: p' =>
      match text with
      | String c text' =>
          if atom_accepts a c then
            match match_atoms p' text' with
            | Some (m, rest) => Some (String c m, rest)
            | None => None
            end
          else None
      | EmptyString => None
      end
  end.

(** [/^(\d{2}):(\d{2})$/.exec(value)]: the two groups of a match. *)
Definition exec_hhmm (value : string) : option (string * string) :=
  match match_atoms [Digit; Digit] value with
  | Some (g1, rest1) =>
      match match_atoms [Lit ":"%char] rest1 with
      | Some (_, rest2) =>
          match match_atoms [Digit; Digit] rest2 with
          | Some (g2, EmptyString) => Some (g1, g2)
          | _ => None
          end
      | None => None
      end
  | None => None
  end.

(** [Number(text)] on a run of decimal digits. *)
Definition Number (text : string) : Z :=
  fold_left (fun acc c => 10 * acc + digit_value c) (list_ascii_of_string text) 0.

Definition fromTimeStringHHMM (value : string) : Z :=
  match exec_hhmm value with
  | None => 0
  | Some (g1, g2) =>
      let hh := Z.max 0 (Z.min 23 (Number g1)) in
      let mm := Z.max 0 (Z.min 59 (Number g2)) in
      hh * 3600 + mm * 60
  end.

(** The strings of the shape [dd:dd]. *)
Definition hhmm_text (d1 d2 d3 d4 : ascii) : string :=
  String d1 (String d2 (String ":"%char (String d3 (String d4 EmptyString)))).

Definition matches_hhmm (value : string) : Prop :=
  exists d1 d2 d3 d4,
    is_digit d1 = true /\ is_digit d2 = true /\
    is_digit d3 = true /\ is_digit d4 = true /\
    value = hhmm_text d1 d2 d3 d4.

(* ===================================================================== *)
(** * A small JSON reader and writer *)
(* ===================================================================== *)

(** An executable inhabitant of the [JSON] interface for integers, strings
    without escapes, arrays and objects, written without white space the way
    [JSON.stringify] writes.  Text outside this fragment is rejected. *)
Module MiniJSON.

Definition dquote : ascii := "034"%char.

Definition backslash : ascii := "092"%char.

Definition quote (s : string) : string :=
  String dquote (s ++ String dquote EmptyString)%string.

Definition join (sep : string) (parts : list string) : string :=
  match parts with
  | [] => EmptyString
  | p :: ps => fold_left (fun acc q => (acc ++ sep ++ q)%string) ps p
  end.

Fixpoint print (v : jsval) : string :=
  match v with
  | JNull => "null"
  | JBool true => "true"
  | JBool false => "false"
  | JNum n => pretty n
  | JStr s => quote s
  | JArr items => ("[" ++ join "," (map print items) ++ "]")%string
  | JObj fields =>
      ("{" ++ join "," (map (fun kv => quote (fst kv) ++ ":" ++ print (snd kv))
                            fields) ++ "}")%string
  end.

Definition parser (A : Type) : Type := list ascii -> option (A * list ascii).

(** The characters up to the closing quote. *)
Fixpoint read_string (text : list ascii) : option (string * list ascii) :=
  match text with
  | [] => None
  | c :: rest =>
      if Ascii.eqb c dquote then Some (EmptyString, rest)
      else if Ascii.eqb c backslash then None
      else match read_string rest with
           | Some (s, rest') => Some (String c s, rest')
           | None => None
           end
  end.

Fixpoint read_digits (acc : Z) (text : list ascii) : Z * list ascii :=
  match text with
  | c :: rest =>
      if is_digit c then read_digits (10 * acc + digit_value c) rest
      else (acc, text)
  | [] => (acc, text)
  end.

(** [item (sep item)* close], the opening bracket and a first check for an
    empty sequence already done. *)
Fixpoint read_items {A} (item : parser A) (close : ascii) (fuel : nat)
  : parser (list A) :=
  fun text =>
    match fuel with
    | O => None
    | S fuel' =>
        match item text with
        | Some (x, c :: rest) =>
            if Ascii.eqb c close then Some ([x], rest)
            else if Ascii.eqb c ","%char then
              match read_items item close fuel' rest with
              | Some (xs, rest') => Some (x :: xs, rest')
              | None => None
              end
            else None
        | _ => None
        end
    end.

Definition read_field (value : parser jsval) : parser (string * jsval) :=
  fun text =>
    match text with
    | q :: rest =>
        if Ascii.eqb q dquote then
          match read_string rest with
          | Some (k, c :: rest') =>
              if Ascii.eqb c ":"%char then
                match value rest' with
                | Some (v, rest'') => Some ((k, v), rest'')
                | None => None
                end
              else None
          | _ => None
          end
        else None
    | [] => None
    end.

Fixpoint read_value (fuel : nat) : parser jsval :=
  fun text =>
    match fuel with
    | O => None
    | S fuel' =>
        match text with
        | "n" :: "u" :: "l" :: "l" :: rest => Some (JNull, rest)
        | "t" :: "r" :: "u" :: "e" :: rest => Some (JBool true, rest)
        | "f" :: "a" :: "l" :: "s" :: "e" :: rest => Some (JBool false, rest)
        | "[" :: "]" :: rest => Some (JArr [], rest)
        | "[" :: rest =>
            match read_items (read_value fuel') "]" fuel' rest with
            | Some (items, rest') => Some (JArr items, rest')
            | None => None
            end
        | "{" :: "}" :: rest => Some (JObj [], rest)
        | "{" :: rest =>
            match read_items (read_field (read_value fuel')) "}" fuel' rest with
            | Some (fields, rest') => Some (JObj fields, rest')
            | None => None
            end
        | "-" :: c :: rest =>
            if is_digit c then
              let '(n, rest') := read_digits 0 (c :: rest) in Some (JNum (- n), rest')
            else None
        | c :: rest =>
            if Ascii.eqb c dquote then
              match read_string rest with
              | Some (s, rest') => Some (JStr s, rest')
              | None => None
              end
            else if is_digit c then
              let '(n, rest') := read_digits 0 text in Some (JNum n, rest')
            else None
        | [] => None
        end
    end%char.

Definition parse (raw : string) : option jsval :=
  let text := list_ascii_of_string raw in
  match read_value (S (length text)) text with
  | Some (v, []) => Some v
  | _ => None
  end.

Definition json : JSON :=
  {| JSON_parse := parse; JSON_stringify := print |}.

End MiniJSON.

(* ===================================================================== *)
(** * Specification-side notions *)
(* ===================================================================== *)

(** The store invariant of the data model, on the entries of a list. *)
Definition well_formed (rs : list TimeslotRange) : Prop :=
  Forall (fun r => start r <= end_ r) rs.

Definition sorted_by_start (rs : list TimeslotRange) : Prop :=
  StronglySorted (fun a b => start a <= start b) rs.

Definition non_overlapping (rs : list TimeslotRange) : Prop :=
  Sorted (fun a b => end_ a < start b) rs.

(** A well-formed, non-overlapping list. *)
Definition ordered (rs : list TimeslotRange) : Prop :=
  well_formed rs /\ non_overlapping rs.

(** An array of references that denotes a well-formed, sorted,
    non-overlapping list of timeslots. *)
Definition timeslot_list (h : heap) (arr : list loc) (rs : list TimeslotRange)
  : Prop :=
  array_is h arr rs /\ well_formed rs /\ sorted_by_start rs /\ non_overlapping rs.

(** The inclusive ranges [[s, e]] and [[start r, end_ r]] share a second. *)
Definition intersects (s e : Z) (r : TimeslotRange) : Prop :=
  start r <= e /\ s <= end_ r.

(** A value the guard of [addRangeNoOverlap] accepts. *)
Definition valid_meta (m : jsval) : Prop :=
  exists fields name, m = JObj fields /\ obj_get "name" fields = Some (JStr name).

Definition clamp_day (x : Z) : Z := Z.max 0 (Z.min 86399 x).

(** The two overlap errors. *)
Definition overlap_error (e : exn) : Prop :=
  e = Error "overlap with previous range" \/ e = Error "overlap with next range".

(** The rolling hash of the specification on unsigned 32-bit words, and the
    signed reading of a word. *)
Definition djb2_step (h code : Z) : Z :=
  Z.lxor ((Z.shiftl h 5 + h) mod 2 ^ 32) code.

Definition djb2 (name : list Z) : Z := fold_left djb2_step name 5381.

Definition signed32 (u : Z) : Z := if u <? 2 ^ 31 then u else u - 2 ^ 32.

(** The persisted value carries the date [d]. *)
Definition dated (parsed : jsval) (d : Z * Z * Z) : Prop :=
  get_prop parsed "date" = Some (date_value d).

(** ** The entries an insertion leaves, on values

    [before] are the entries in front of the insertion position, [after] the
    entries from it on. *)

Definition prev_overlaps (before : list TimeslotRange) (s : Z) : bool :=
  match last before with
  | Some a => s <=? end_ a
  | None => false
  end.

Definition next_overlaps (after : list TimeslotRange) (e : Z) : bool :=
  match head after with
  | Some b => start b <=? e
  | None => false
  end.

Definition merge_left (before : list TimeslotRange) (new : TimeslotRange)
  : list TimeslotRange * TimeslotRange :=
  match last before with
  | Some a => if joins a new then (removelast before, extend a new) else (before, new)
  | None => (before, new)
  end.

Definition merge_right (cur : TimeslotRange) (after : list TimeslotRange)
  : list TimeslotRange :=
  match after with
  | b :: rest => if joins cur b then extend cur b :: rest else cur :: after
  | [] => [cur]
  end.

Definition merged (before : list TimeslotRange) (new : TimeslotRange)
    (after : list TimeslotRange) : list TimeslotRange :=
  let '(before', cur) := merge_left before new in
  (before' ++ merge_right cur after)%list.

(** The merge with the left neighbour the way the specification words it:
    inserting [[a.end + 1, x]] under the name of [a] leaves the single entry
    [[a.start, x]] with the meta of [a] in the place of [a]. *)
Definition left_merge_as_stated : Prop :=
  forall (h : heap) (list : list loc) (l1 : Datatypes.list TimeslotRange)
         (a : TimeslotRange) (l2 : Datatypes.list TimeslotRange)
         (x : Z) (meta' : jsval) (next : Datatypes.list loc) (h' : heap),
    timeslot_list h list (l1 ++ a :: l2) ->
    strict_eq (get_prop (meta a) "name") (get_prop meta' "name") = true ->
    0 <= end_ a + 1 -> end_ a + 1 <= x -> x <= 86399 ->
    addRangeNoOverlap list (end_ a + 1) x meta' h = (Ok next, h') ->
    array_is h' next
      (l1 ++ {| start := start a; end_ := x; meta := meta a |} :: l2).

(** ** Sample data *)

Definition named (name : string) : jsval := JObj [("name", JStr name)].

Definition slot (s e : Z) (name : string) : TimeslotRange :=
  {| start := s; end_ := e; meta := named name |}.

Definition day_of (d m y : Z) : Date :=
  {| getDate := d; getMonth := m; getFullYear := y |}.

Definition focus_store (d : Z) : jsobject :=
  [("date", JArr [JNum d; JNum 10; JNum 2026]);
   ("timeslots",
    JArr [JObj [("start", JNum 0); ("end", JNum 3599);
                ("meta", JObj [("name", JStr "focus")])]]);
   ("theme", JStr "dark")].

Definition stored (text : string) : gmap string string := {["timeslots" := text]}.

(* ===================================================================== *)
(** * Clock readings, time labels and the active slot *)
(* ===================================================================== *)

(** The local time-of-day reading of a [Date]. *)
Record Clock : Type := {
  getHours : Z;
  getMinutes : Z;
  getSeconds : Z
}.

Definition getSecondsSinceMidnight (now : Clock) : Z :=
  getHours now * 3600 + getMinutes now * 60 + getSeconds now.

Definition getRemainingSeconds (now : Clock) : Z :=
  Z.max 0 (86400 - getSecondsSinceMidnight now).

(** [String(n)] on an integer: its decimal digits, with a sign when
    negative. *)
Definition String_of (n : Z) : string := pretty n.

(** [text.padStart(target, fill)] for a one-character [fill]. *)
Definition padStart (target : nat) (fill : ascii) (text : string) : string :=
  (string_of_list_ascii (repeat fill (target - String.length text)) ++ text)%string.

(** [Math.floor(a / b)] is [a / b] on integers; [a % b] truncates towards
    zero, which is [Z.rem]. *)
Record HhMmSs : Type := {
  hh : string;
  mm : string;
  ss : string
}.

Definition formatHhMmSsParts (totalSeconds : Z) : HhMmSs :=
  let hours := totalSeconds / 3600 in
  let minutes := Z.rem totalSeconds 3600 / 60 in
  let seconds := Z.rem totalSeconds 60 in
  {| hh := padStart 2 "0" (String_of hours);
     mm := padStart 2 "0" (String_of minutes);
     ss := padStart 2 "0" (String_of seconds) |}.

Definition formatHhMmSs (totalSeconds : Z) : string :=
  let hours := totalSeconds / 3600 in
  let minutes := Z.rem totalSeconds 3600 / 60 in
  let seconds := Z.rem totalSeconds 60 in
  let hh := padStart 2 "0" (String_of hours) in
  let mm := padStart 2 "0" (String_of minutes) in
  let ss := padStart 2 "0" (String_of seconds) in
  (hh ++ ":" ++ mm ++ ":" ++ ss)%string.

Definition toTimeStringHHMM (seconds : Z) : string :=
  let s := Z.max 0 (Z.min 86399 seconds) in
  let hh := padStart 2 "0" (String_of (s / 3600)) in
  let mm := padStart 2 "0" (String_of (Z.rem s 3600 / 60)) in
  (hh ++ ":" ++ mm)%string.

(** [for (const r of timeslots) if (r.start <= nowSeconds && nowSeconds <= r.end)
    return r; return null]: the reference of the first entry that holds. *)
Fixpoint findActiveSlot (timeslots : list loc) (nowSeconds : Z) : M (option loc) :=
  match timeslots with
  | [] => ret None
  | l :: rest =>
      r <- load l ;;
      if (start r <=? nowSeconds) && (nowSeconds <=? end_ r)
      then ret (Some l)
      else findActiveSlot rest nowSeconds
  end.

(** The range [createFromPickers] computes from the two pickers, between the
    name prompt and the store update: [None] where it alerts
    "End time must be after start time." and returns. *)
Definition pickedRange (pickerStart pickerEnd : string) : option (Z * Z) :=
  let startSeconds := fromTimeStringHHMM pickerStart in
  (* pickerEnd is an exclusive boundary, the stored end is inclusive *)
  let endExclusive := fromTimeStringHHMM pickerEnd in
  if endExclusive <=? startSeconds then None
  else Some (startSeconds, Z.max 0 (endExclusive - 1)).

Section Actions.
Context `{JSON}.

(** [resetTimeslots]: [writeStore(makeDefaultTimeslots(new Date()), ...)]. *)
Definition resetTimeslots (now : Date) (st : AppState) : AppState :=
  writeStore (makeDefaultTimeslots now) st.

(** The store part of the mount effect:
    [fresh = readStoreForToday(now); writeStore(fresh, ...)]. *)
Definition mountStore (now : Date) (st : AppState) : AppState :=
  writeStore (readStoreForToday (localStorage st) now) st.

End Actions.

(** ** Notions for the properties of these functions *)

(** The entry holds the second [t]. *)
Definition covers (r : TimeslotRange) (t : Z) : Prop :=
  start r <= t /\ t <= end_ r.

(** Some entry of the list holds the second [t] under the name [n]. *)
Definition labelled (rs : list TimeslotRange) (t : Z) (n : option jsval) : Prop :=
  exists r, r ∈ rs /\ covers r t /\ get_prop (meta r) "name" = n.

(** No two neighbours of the list could still be merged. *)
Definition fully_merged (rs : list TimeslotRange) : Prop :=
  Sorted (fun a b => joins a b = false) rs.

(** Every object of [h] is still in [h'], with the start and the meta it
    had. *)
Definition keeps_objects (h h' : heap) : Prop :=
  forall l r, h !! l = Some r ->
    exists r', h' !! l = Some r' /\ start r' = start r /\ meta r' = meta r.

(** A computation that keeps the objects of the heap it is run from. *)
Definition preserving {A} (c : M A) : Prop :=
  forall h res h', c h = (res, h') -> keeps_objects h h'.

(** The number of entries that start at or before [s]. *)
Definition starts_upto (s : Z) (rs : list TimeslotRange) : nat :=
  length (List.filter (fun r => start r <=? s) rs).

(** A text [dd:dd] and the two numbers it shows. *)
Definition two_digits (n : Z) : string :=
  String (ascii_of_N (Z.to_N (48 + n / 10)))
    (String (ascii_of_N (Z.to_N (48 + n mod 10))) EmptyString).

Definition clock_text (hours minutes : Z) : string :=
  (two_digits hours ++ ":" ++ two_digits minutes)%string.

(* ===================================================================== *)
(** * Time strings: [fromTimeStringHHMM] *)
(* ===================================================================== *)

Lemma exec_hhmm_match d1 d2 d3 d4 :
  is_digit d1 = true -> is_digit d2 = true ->
  is_digit d3 = true -> is_digit d4 = true ->
  exec_hhmm (hhmm_text d1 d2 d3 d4)
  = Some (String d1 (String d2 EmptyString), String d3 (String d4 EmptyString)).
Proof.
  intros H1 H2 H3 H4. unfold exec_hhmm, hhmm_text. simpl.
  rewrite H1, H2. simpl. rewrite H3, H4. reflexivity.
Qed.

Lemma exec_hhmm_inv value g1 g2 :
  exec_hhmm value = Some (g1, g2) -> matches_hhmm value.
Proof.
  unfold exec_hhmm, matches_hhmm, hhmm_text.
  destruct value as [|c1 [|c2 [|c3 [|c4 [|c5 rest]]]]]; simpl; try discriminate.
  - destruct (is_digit c1); discriminate.
  - destruct (is_digit c1), (is_digit c2); discriminate.
  - destruct (is_digit c1), (is_digit c2); simpl; try discriminate.
    destruct (Ascii.eqb c3 ":"); discriminate.
  - destruct (is_digit c1), (is_digit c2); simpl; try discriminate.
    destruct (Ascii.eqb c3 ":"); simpl; try discriminate.
    destruct (is_digit c4); discriminate.
  - destruct (is_digit c1) eqn:E1, (is_digit c2) eqn:E2; simpl; try discriminate.
    destruct (Ascii.eqb c3 ":") eqn:E3; simpl; try discriminate.
    destruct (is_digit c4) eqn:E4, (is_digit c5) eqn:E5; simpl; try discriminate.
    destruct rest; try discriminate.
    intros _. apply Ascii.eqb_eq in E3. subst c3.
    exists c1, c2, c4, c5. repeat split; assumption.
Qed.

Lemma digit_value_range c : is_digit c = true -> 0 <= digit_value c <= 9.
Proof.
  unfold is_digit, digit_value. intros H.
  apply andb_true_iff in H as [Hlo Hhi].
  apply N.leb_le in Hlo. apply N.leb_le in Hhi. lia.
Qed.

(** C9. A text that is not of the shape [dd:dd] is read as 0 seconds; the
    function is total, so nothing is raised. *)
Theorem fromTimeStringHHMM_malformed (value : string) :
  ~ matches_hhmm value -> fromTimeStringHHMM value = 0.
Proof.
  intros Hno. unfold fromTimeStringHHMM.
  destruct (exec_hhmm value) as [[g1 g2]|] eqn:E; [|reflexivity].
  exfalso. apply Hno. eapply exec_hhmm_inv. exact E.
Qed.

Lemma not_hhmm_no_colon : ~ matches_hhmm "1234".
Proof.
  intros (d1 & d2 & d3 & d4 & _ & _ & _ & _ & E). discriminate E.
Qed.

Lemma fromTimeStringHHMM_malformed_witness : fromTimeStringHHMM "1234" = 0.
Proof. exact (fromTimeStringHHMM_malformed "1234" not_hhmm_no_colon). Defined.

(** C10. On a text [dd:dd] the two fields are clamped to 23 hours and 59
    minutes, never rejected, and the result lies in [[0, 86340]]. *)
Theorem fromTimeStringHHMM_clamps (d1 d2 d3 d4 : ascii) :
  is_digit d1 = true -> is_digit d2 = true ->
  is_digit d3 = true -> is_digit d4 = true ->
  let hh := 10 * digit_value d1 + digit_value d2 in
  let mm := 10 * digit_value d3 + digit_value d4 in
  fromTimeStringHHMM (hhmm_text d1 d2 d3 d4)
  = Z.min hh 23 * 3600 + Z.min mm 59 * 60
  /\ 0 <= fromTimeStringHHMM (hhmm_text d1 d2 d3 d4) <= 86340.
Proof.
  intros H1 H2 H3 H4 hh mm.
  unfold fromTimeStringHHMM. rewrite exec_hhmm_match by assumption.
  apply digit_value_range in H1, H2, H3, H4.
  unfold Number. simpl. subst hh mm. lia.
Qed.

Lemma fromTimeStringHHMM_clamps_witness :
  fromTimeStringHHMM "99:99" = 86340 /\ 0 <= fromTimeStringHHMM "99:99" <= 86340.
Proof.
  exact (fromTimeStringHHMM_clamps "9" "9" "9" "9" eq_refl eq_refl eq_refl eq_refl).
Defined.

(* ===================================================================== *)
(** * Colour derivation: [colorFromName] *)
(* ===================================================================== *)

Lemma lxor_mod_pow2 a b n :
  0 <= n -> Z.lxor a b mod 2 ^ n = Z.lxor (a mod 2 ^ n) (b mod 2 ^ n).
Proof.
  intros Hn. apply Z.bits_inj'. intros i Hi.
  rewrite Z.lxor_spec, !Z.testbit_mod_pow2, Z.lxor_spec by assumption.
  destruct (i <? n); reflexivity.
Qed.

Lemma lxor_below a b n :
  0 <= n -> 0 <= a < 2 ^ n -> 0 <= b < 2 ^ n -> 0 <= Z.lxor a b < 2 ^ n.
Proof.
  intros Hn Ha Hb.
  assert (E : Z.lxor a b = Z.lxor a b mod 2 ^ n).
  { rewrite lxor_mod_pow2 by assumption. rewrite !Z.mod_small by assumption. reflexivity. }
  rewrite E. apply Z.mod_pos_bound. lia.
Qed.

Lemma ToInt32_signed32 x : ToInt32 x = signed32 (x mod 2 ^ 32).
Proof.
  unfold ToInt32, signed32.
  pose proof (Z.mod_pos_bound x (2 ^ 32) ltac:(lia)) as Hx.
  pose proof (Z.div_mod x (2 ^ 32) ltac:(lia)) as Hdiv.
  destruct (Z.ltb_spec (x mod 2 ^ 32) (2 ^ 31)) as [Hlt|Hge].
  - rewrite <- (Z.mod_unique (x + 2 ^ 31) (2 ^ 32) (x / 2 ^ 32)
                  (x mod 2 ^ 32 + 2 ^ 31)); lia.
  - rewrite <- (Z.mod_unique (x + 2 ^ 31) (2 ^ 32) (x / 2 ^ 32 + 1)
                  (x mod 2 ^ 32 - 2 ^ 31)); lia.
Qed.

Lemma signed32_range u : 0 <= u < 2 ^ 32 -> - 2 ^ 31 <= signed32 u < 2 ^ 31.
Proof. unfold signed32. intros Hu. destruct (Z.ltb_spec u (2 ^ 31)); lia. Qed.

Lemma signed32_mod u : 0 <= u < 2 ^ 32 -> signed32 u mod 2 ^ 32 = u.
Proof.
  unfold signed32. intros Hu. destruct (Z.ltb_spec u (2 ^ 31)).
  - apply Z.mod_small. lia.
  - symmetry. apply (Z.mod_unique _ _ (-1)); lia.
Qed.

Lemma signed32_unique x u :
  - 2 ^ 31 <= x < 2 ^ 31 -> 0 <= u < 2 ^ 32 -> x mod 2 ^ 32 = u -> x = signed32 u.
Proof.
  intros Hx Hu E. unfold signed32. subst u.
  destruct (Z.ltb_spec (x mod 2 ^ 32) (2 ^ 31)) as [Hlt|Hge].
  - destruct (Z.le_gt_cases 0 x) as [Hpos|Hneg].
    + rewrite Z.mod_small; lia.
    + rewrite <- (Z.mod_unique x (2 ^ 32) (-1) (x + 2 ^ 32)) in Hlt; lia.
  - destruct (Z.le_gt_cases 0 x) as [Hpos|Hneg].
    + rewrite Z.mod_small in Hge; lia.
    + rewrite <- (Z.mod_unique x (2 ^ 32) (-1) (x + 2 ^ 32)); lia.
Qed.

(** XOR with a small non-negative operand stays within the signed range. *)
Lemma lxor_int32_range x c :
  - 2 ^ 31 <= x < 2 ^ 31 -> 0 <= c < 2 ^ 31 -> - 2 ^ 31 <= Z.lxor x c < 2 ^ 31.
Proof.
  intros Hx Hc. destruct (Z.le_gt_cases 0 x) as [Hpos|Hneg].
  - pose proof (lxor_below x c 31 ltac:(lia) ltac:(lia) Hc). lia.
  - assert (E : Z.lxor x c = Z.lnot (Z.lxor (Z.lnot x) c)).
    { rewrite Z.lnot_lxor_l, Z.lnot_involutive. reflexivity. }
    rewrite E.
    assert (Hn : 0 <= Z.lnot x < 2 ^ 31) by (unfold Z.lnot; lia).
    pose proof (lxor_below (Z.lnot x) c 31 ltac:(lia) Hn Hc) as Hb.
    revert Hb. generalize (Z.lxor (Z.lnot x) c). intros y Hy.
    unfold Z.lnot. lia.
Qed.

Lemma djb2_step_range u c :
  0 <= c < 2 ^ 16 -> 0 <= djb2_step u c < 2 ^ 32.
Proof.
  intros Hc. unfold djb2_step. apply lxor_below; [lia| |lia].
  apply Z.mod_pos_bound. lia.
Qed.

(** One round of the source loop is one round of the 32-bit hash. *)
Lemma hash_step_djb2 u c :
  0 <= u < 2 ^ 32 -> 0 <= c < 2 ^ 16 ->
  hash_step (signed32 u) c = signed32 (djb2_step u c).
Proof.
  intros Hu Hc.
  pose proof (signed32_range u Hu) as Hh.
  pose proof (signed32_mod u Hu) as Hm.
  apply signed32_unique.
  - unfold hash_step, js_xor.
    assert (Ec : ToInt32 c = c).
    { rewrite ToInt32_signed32, Z.mod_small by lia. unfold signed32.
      destruct (Z.ltb_spec c (2 ^ 31)); lia. }
    rewrite Ec. apply lxor_int32_range; [|lia].
    rewrite ToInt32_signed32. apply signed32_range. apply Z.mod_pos_bound. lia.
  - apply djb2_step_range. assumption.
  - unfold hash_step, js_xor, js_shl, djb2_step.
    rewrite lxor_mod_pow2 by lia.
    rewrite !ToInt32_signed32, Hm, !Z.shiftl_mul_pow2 by lia.
    rewrite (Z.mod_small c) by lia.
    rewrite !(signed32_mod (_ mod 2 ^ 32)) by (apply Z.mod_pos_bound; lia).
    rewrite (signed32_mod c) by lia.
    f_equal.
    rewrite Zplus_mod, Hm.
    rewrite (signed32_mod (_ mod 2 ^ 32)) by (apply Z.mod_pos_bound; lia).
    rewrite <- (Zmult_mod_idemp_l (signed32 u)), Hm.
    rewrite Zplus_mod_idemp_l. reflexivity.
Qed.

Lemma hash_from_djb2 name : forall u,
  0 <= u < 2 ^ 32 -> Forall (fun c => 0 <= c < 2 ^ 16) name ->
  hash_from (signed32 u) name = signed32 (fold_left djb2_step name u)
  /\ 0 <= fold_left djb2_step name u < 2 ^ 32.
Proof.
  induction name as [|c name IH]; intros u Hu Hname.
  - split; [reflexivity | exact Hu].
  - inversion Hname as [|? ? Hc Hrest]; subst. unfold hash_from in *. simpl.
    rewrite hash_step_djb2 by assumption.
    apply IH; [apply djb2_step_range|]; assumption.
Qed.

(** C6. The hue is [abs(h) mod 360] of the 32-bit rolling hash seeded at
    5381 and does not depend on the state flags; the flags select saturation,
    lightness and alpha from the fixed table, and the result is the [hsla]
    text of these four values. *)
Theorem colorFromName_hue_and_table (name : list Z) (isPast isRunning : bool) :
  Forall (fun c => 0 <= c < 2 ^ 16) name ->
  let spec_hue := Z.abs (signed32 (djb2 name)) mod 360 in
  let knobs :=
    if isRunning then (5, 30, "0.8")
    else if isPast then (15, 25, "0.35") else (70, 55, "0.7") in
  hue (colorParts name isPast isRunning) = spec_hue
  /\ (forall isPast' isRunning',
        hue (colorParts name isPast' isRunning')
        = hue (colorParts name isPast isRunning))
  /\ (saturation (colorParts name isPast isRunning),
      lightness (colorParts name isPast isRunning),
      alpha (colorParts name isPast isRunning)) = knobs
  /\ colorFromName name isPast isRunning
     = css {| hue := spec_hue; saturation := knobs.1.1;
              lightness := knobs.1.2; alpha := knobs.2 |}.
Proof.
  intros Hname spec_hue knobs.
  assert (Hhue : hue (colorParts name isPast isRunning) = spec_hue).
  { unfold colorParts, name_hash, spec_hue, djb2. simpl.
    change 5381 with (signed32 5381) at 1.
    destruct (hash_from_djb2 name 5381 ltac:(lia) Hname) as [E _].
    rewrite E. reflexivity. }
  split; [exact Hhue|]. split; [reflexivity|]. split.
  - subst knobs. destruct isRunning, isPast; reflexivity.
  - unfold colorFromName. rewrite <- Hhue.
    subst knobs. destruct isRunning, isPast; reflexivity.
Qed.

Lemma colorFromName_hue_and_table_witness :
  hue (colorParts (code_units "focus") true true) = 281
  /\ colorFromName (code_units "focus") true true = "hsla(281, 5%, 30%, 0.8)".
Proof.
  destruct (colorFromName_hue_and_table (code_units "focus") true true)
    as (Hhue & _ & _ & Hcss).
  - repeat constructor; vm_compute; congruence.
  - split; [exact Hhue | exact Hcss].
Defined.

(* ===================================================================== *)
(** * Day-scoped persistence: [readStoreForToday], [writeStore] *)
(* ===================================================================== *)

Lemma obj_get_set_eq key v o : obj_get key (obj_set key v o) = Some v.
Proof.
  induction o as [|[k w] o IH]; simpl.
  - rewrite String.eqb_refl. reflexivity.
  - destruct (String.eqb k key) eqn:E; simpl; rewrite E; [reflexivity | exact IH].
Qed.

Lemma obj_get_set_ne key key' v o :
  key <> key' -> obj_get key' (obj_set key v o) = obj_get key' o.
Proof.
  intros Hne. induction o as [|[k w] o IH]; simpl.
  - destruct (String.eqb_spec key key'); [contradiction | reflexivity].
  - destruct (String.eqb_spec k key) as [->|Hk]; simpl.
    + destruct (String.eqb_spec key key'); [contradiction | reflexivity].
    + destruct (String.eqb k key'); [reflexivity | exact IH].
Qed.

Lemma obj_set_same key v o : obj_get key o = Some v -> obj_set key v o = o.
Proof.
  induction o as [|[k w] o IH]; simpl; [discriminate|].
  destruct (String.eqb k key) eqn:E.
  - intros [= ->]. reflexivity.
  - intros Hget. rewrite IH by assumption. reflexivity.
Qed.

Lemma isSameDate_dated parsed d :
  isSameDate (get_prop parsed "date") d = true <-> dated parsed d.
Proof.
  unfold dated, isSameDate, date_value. destruct d as [[d0 d1] d2].
  destruct (get_prop parsed "date") as [v|]; [|split; discriminate].
  destruct v as [| | | |items|]; try (split; discriminate).
  destruct items as [|a0 [|a1 [|a2 [|a3 rest]]]]; try (split; discriminate).
  split.
  - intros Hsame.
    apply andb_true_iff in Hsame as [Hsame H2].
    apply andb_true_iff in Hsame as [H0 H1].
    destruct a0, a1, a2; simpl in H0, H1, H2; try discriminate.
    apply Z.eqb_eq in H0, H1, H2. subst. reflexivity.
  - intros [= -> -> ->]. simpl. rewrite !Z.eqb_refl. reflexivity.
Qed.

Section PersistenceFacts.
Context `{JSON}.

(** The empty text is not JSON: [JSON.parse] throws on it. *)
Hypothesis parse_empty : JSON_parse EmptyString = None.

(** C5. An absent or unparsable blob, or one whose date is not today's,
    gives the fresh empty store of today whatever else it holds: the store
    of exactly two fields, the date of today and an empty list of
    timeslots.  Otherwise the stored fields come back with the date set to
    today and the timeslots kept when they are an array, emptied when they
    are not. *)
Theorem readStoreForToday_cases (storage : gmap string string) (now : Date) :
  let today := getTodayArray now in
  let loaded := readStoreForToday storage now in
  let fresh : jsobject := [("date", date_value today); ("timeslots", JArr [])] in
  (storage !! "timeslots" = None -> loaded = fresh)
  /\ (forall raw,
        storage !! "timeslots" = Some raw -> JSON_parse raw = None ->
        loaded = fresh)
  /\ (forall raw parsed,
        storage !! "timeslots" = Some raw -> JSON_parse raw = Some parsed ->
        ~ dated parsed today ->
        loaded = fresh)
  /\ (forall raw parsed,
        storage !! "timeslots" = Some raw -> JSON_parse raw = Some parsed ->
        dated parsed today ->
        obj_get "date" loaded = Some (date_value today)
        /\ obj_get "timeslots" loaded
           = Some (match get_prop parsed "timeslots" with
                   | Some (JArr items) => JArr items
                   | _ => JArr []
                   end)
        /\ forall key, key <> "date" -> key <> "timeslots" ->
             obj_get key loaded = get_prop parsed key).
Proof.
  intros today loaded fresh. subst loaded fresh.
  unfold readStoreForToday, makeDefaultTimeslots. fold today.
  split; [|split; [|split]].
  - intros ->. reflexivity.
  - intros raw -> ->. destruct (String.eqb raw EmptyString); reflexivity.
  - intros raw parsed -> -> Hdate.
    destruct (String.eqb raw EmptyString); [reflexivity|].
    destruct (isSameDate (get_prop parsed "date") today) eqn:E; [|reflexivity].
    apply isSameDate_dated in E. contradiction.
  - intros raw parsed -> Hparsed Hdate.
    destruct (String.eqb_spec raw EmptyString) as [->|_]; [congruence|].
    rewrite Hparsed.
    pose proof Hdate as Hsame. apply isSameDate_dated in Hsame as ->.
    simpl. split; [|split].
    + rewrite obj_get_set_ne by discriminate. apply obj_get_set_eq.
    + apply obj_get_set_eq.
    + intros key Hk1 Hk2. rewrite !obj_get_set_ne by congruence.
      unfold dated in Hdate. destruct parsed; try discriminate. reflexivity.
Qed.

(** C8. A store of today's date that the platform's JSON functions carry
    through unchanged is loaded back, after [writeStore], with the
    timeslots it was saved with; the loaded store is the saved one. *)
Theorem writeStore_readStoreForToday
    (store : jsobject) (st : AppState) (now : Date) (items : list jsval) :
  JSON_parse (JSON_stringify (JObj store)) = Some (JObj store) ->
  obj_get "date" store = Some (date_value (getTodayArray now)) ->
  obj_get "timeslots" store = Some (JArr items) ->
  let loaded := readStoreForToday (localStorage (writeStore store st)) now in
  obj_get "timeslots" loaded = Some (JArr items) /\ loaded = store.
Proof.
  intros Hround Hdate Hslots loaded.
  assert (Hloaded : loaded = store).
  { subst loaded. unfold writeStore, readStoreForToday. simpl localStorage.
    rewrite lookup_insert_eq.
    destruct (String.eqb_spec (JSON_stringify (JObj store)) EmptyString) as [E|_].
    { rewrite E in Hround. congruence. }
    rewrite Hround.
    assert (Hsame : isSameDate (get_prop (JObj store) "date") (getTodayArray now)
                    = true)
      by (apply isSameDate_dated; exact Hdate).
    rewrite Hsame. simpl. rewrite Hslots.
    rewrite (obj_set_same "date") by exact Hdate.
    apply obj_set_same. exact Hslots. }
  rewrite Hloaded. split; [exact Hslots | reflexivity].
Qed.

End PersistenceFacts.

Lemma readStoreForToday_cases_witness :
  let now := day_of 2 10 2026 in
  let blob d := MiniJSON.print (JObj (focus_store d)) in
  let fresh : jsobject :=
    [("date", JArr [JNum 2; JNum 10; JNum 2026]); ("timeslots", JArr [])] in
  @readStoreForToday MiniJSON.json ∅ now = fresh
  /\ @readStoreForToday MiniJSON.json (stored "{") now = fresh
  /\ @readStoreForToday MiniJSON.json (stored (blob 1)) now = fresh
  /\ obj_get "theme" (@readStoreForToday MiniJSON.json (stored (blob 2)) now)
     = Some (JStr "dark").
Proof.
  intros now blob fresh.
  pose proof (fun storage =>
    @readStoreForToday_cases MiniJSON.json eq_refl storage now) as Hcases.
  split; [|split; [|split]].
  - apply (Hcases ∅). reflexivity.
  - apply (Hcases (stored "{")) with (raw := "{"); reflexivity.
  - apply (Hcases (stored (blob 1)))
      with (raw := blob 1) (parsed := JObj (focus_store 1));
      [reflexivity | reflexivity | discriminate].
  - destruct (Hcases (stored (blob 2))) as (_ & _ & _ & Hkeep).
    destruct (Hkeep (blob 2) (JObj (focus_store 2)) eq_refl eq_refl eq_refl)
      as (_ & _ & Hother).
    rewrite Hother by discriminate. reflexivity.
Defined.

Lemma writeStore_readStoreForToday_witness :
  let now := day_of 2 10 2026 in
  let st := {| localStorage := ∅; timeslotsDebug := "{}"; timeslots := JArr [] |} in
  let loaded :=
    @readStoreForToday MiniJSON.json
      (localStorage (@writeStore MiniJSON.json (focus_store 2) st)) now in
  obj_get "timeslots" loaded = obj_get "timeslots" (focus_store 2)
  /\ loaded = focus_store 2.
Proof.
  intros now st.
  apply (@writeStore_readStoreForToday MiniJSON.json eq_refl (focus_store 2) st now);
    reflexivity.
Defined.

(* ===================================================================== *)
(** * The interval store: [addRangeNoOverlap] *)
(* ===================================================================== *)

(** ** The search loop *)

Lemma half_between lo hi :
  (lo < hi)%nat -> (lo <= Nat.shiftr (lo + hi) 1 < hi)%nat.
Proof.
  intros Hlt. simpl. pose proof (Nat.div2_odd (lo + hi)) as Hhalf.
  destruct (Nat.odd (lo + hi)); simpl Nat.b2n in Hhalf; lia.
Qed.

Lemma sorted_prefix_le (xs : list Z) (s : Z) (mid : nat) (x : Z) :
  StronglySorted Z.le xs -> xs !! mid = Some x -> x <= s ->
  Forall (fun y => y <= s) (take (mid + 1) xs).
Proof.
  intros Hsorted Hmid Hle.
  rewrite <- (take_drop_middle xs mid x Hmid) in Hsorted.
  apply StronglySorted_app in Hsorted as (Hcross & _ & _).
  apply Forall_lookup. intros i y Hi.
  apply lookup_take_Some in Hi as [Hi Hlt].
  destruct (decide (i = mid)) as [->|Hne].
  - rewrite Hmid in Hi. injection Hi as <-. exact Hle.
  - transitivity x; [|exact Hle].
    apply Hcross; [|left].
    apply list_elem_of_lookup. exists i.
    apply lookup_take_Some. split; [exact Hi | lia].
Qed.

Lemma sorted_suffix_gt (xs : list Z) (s : Z) (mid : nat) (x : Z) :
  StronglySorted Z.le xs -> xs !! mid = Some x -> s < x ->
  Forall (fun y => s < y) (drop mid xs).
Proof.
  intros Hsorted Hmid Hgt.
  rewrite <- (take_drop_middle xs mid x Hmid) in Hsorted.
  apply StronglySorted_app in Hsorted as (_ & _ & Htail).
  apply StronglySorted_inv in Htail as [_ Hall].
  rewrite <- (take_drop_middle xs mid x Hmid) at 1.
  rewrite drop_app_length'
    by (rewrite length_take_le; [reflexivity | apply lookup_lt_Some in Hmid; lia]).
  constructor; [exact Hgt|].
  eapply Forall_impl; [exact Hall|]. simpl. intros y Hy. lia.
Qed.

(** On a sorted array the loop ends at the first index whose start exceeds
    [s]. *)
Lemma findInsertPos_sorted (read : nat -> outcome Z) (xs : list Z) (s : Z) :
  (forall i x, xs !! i = Some x -> read i = Ok x) ->
  StronglySorted Z.le xs ->
  forall n lo hi,
    (hi - lo = n)%nat -> (lo <= hi <= length xs)%nat ->
    Forall (fun x => x <= s) (take lo xs) ->
    Forall (fun x => s < x) (drop hi xs) ->
    exists pos,
      findInsertPos read s lo hi = Ok pos
      /\ (pos <= length xs)%nat
      /\ Forall (fun x => x <= s) (take pos xs)
      /\ Forall (fun x => s < x) (drop pos xs).
Proof.
  intros Hread Hsorted n.
  induction n as [n IH] using lt_wf_ind. intros lo hi Hn Hrange Hlow Hhigh.
  rewrite findInsertPos_equation_1.
  destruct (lt_dec lo hi) as [Hlt|Hge].
  - pose proof (half_between lo hi Hlt) as Hmid.
    remember (Nat.shiftr (lo + hi) 1) as mid eqn:Emid.
    destruct (lookup_lt_is_Some_2 xs mid ltac:(lia)) as [x Hx].
    cbn. change (Nat.div2 (lo + hi)) with (Nat.shiftr (lo + hi) 1).
    rewrite <- Emid, (Hread _ _ Hx). cbn.
    destruct (Z.leb_spec x s) as [Hle|Hgt]; cbn;
      change (Nat.div2 (lo + hi)) with (Nat.shiftr (lo + hi) 1); rewrite <- Emid.
    + apply (IH (hi - (mid + 1))%nat); try lia; try assumption.
      eapply sorted_prefix_le; eassumption.
    + apply (IH (mid - lo)%nat); try lia; try assumption.
      eapply sorted_suffix_gt; eassumption.
  - exists lo. replace hi with lo in * by lia. repeat split; try assumption. lia.
Qed.

(** ** Computations *)

Lemma bind_ok {A B} (c : M A) (k : A -> M B) h a h' :
  c h = (Ok a, h') -> bind c k h = k a h'.
Proof. intros E. unfold bind. rewrite E. reflexivity. Qed.

Lemma bind_throw {A B} (c : M A) (k : A -> M B) h e h' :
  c h = (Throw e, h') -> bind c k h = (Throw e, h').
Proof. intros E. unfold bind. rewrite E. reflexivity. Qed.

Lemma entry_run (arr : list loc) (i : nat) (l : loc) (r : TimeslotRange) (h : heap) :
  arr !! i = Some l -> h !! l = Some r -> entry arr i h = (Ok r, h).
Proof.
  intros Harr Hl. unfold entry, bind, elem, load. rewrite Harr, Hl. reflexivity.
Qed.

Lemma mergeNeighbours_run (next : list loc) (i : nat) (a b : loc)
    (ra rb : TimeslotRange) (h : heap) :
  next !! i = Some a -> next !! (i + 1)%nat = Some b ->
  h !! a = Some ra -> h !! b = Some rb ->
  mergeNeighbours next i h
  = if joins ra rb
    then (Ok (Some (delete (i + 1)%nat next)), <[a := extend ra rb]> h)
    else (Ok None, h).
Proof.
  intros Ha Hb Hra Hrb.
  unfold mergeNeighbours, bind, elem, load, store_end, ret.
  rewrite Ha, Hb, Hra, Hrb. destruct (joins ra rb); [|reflexivity].
  rewrite Hra. reflexivity.
Qed.

(** ** Arrays of references *)

Lemma array_is_lookup h (arr : list loc) rs i l :
  array_is h arr rs -> arr !! i = Some l ->
  exists r, rs !! i = Some r /\ h !! l = Some r.
Proof. intros Harr Hi. eapply Forall2_lookup_l in Harr as (r & Hr & Hl); eauto. Qed.

Lemma array_is_bound h (arr : list loc) rs l :
  array_is h arr rs -> l ∈ arr -> (l < length h)%nat.
Proof.
  intros Harr Hin. apply list_elem_of_lookup in Hin as [i Hi].
  destruct (array_is_lookup _ _ _ _ _ Harr Hi) as (r & _ & Hl).
  eapply lookup_lt_Some. exact Hl.
Qed.

Lemma array_is_alloc h (arr : list loc) rs r :
  array_is h arr rs -> array_is (h ++ [r]) arr rs.
Proof.
  intros Harr. eapply Forall2_impl; [exact Harr|].
  intros l r' Hl. apply lookup_app_l_Some. exact Hl.
Qed.

Lemma array_is_write h (arr : list loc) rs l v :
  array_is h arr rs -> l ∉ arr -> array_is (<[l := v]> h) arr rs.
Proof.
  intros Harr Hnot. unfold array_is in *.
  apply Forall2_same_length_lookup. apply Forall2_same_length_lookup in Harr as [Hlen Hall].
  split; [exact Hlen|]. intros i l' r Hl' Hr. cbv beta.
  rewrite list_lookup_insert_ne; [eauto|].
  intros ->. apply Hnot. eapply list_elem_of_lookup_2. exact Hl'.
Qed.

Lemma array_is_app h (arr1 arr2 : list loc) rs1 rs2 :
  array_is h arr1 rs1 -> array_is h arr2 rs2 -> array_is h (arr1 ++ arr2) (rs1 ++ rs2).
Proof. apply Forall2_app. Qed.

Lemma array_is_contents h (arr : list loc) rs :
  array_is h arr rs -> contents h arr = Some rs.
Proof.
  unfold contents. intros Harr. apply mapM_Some. exact Harr.
Qed.

Lemma startAt_array h (arr : list loc) rs i x :
  array_is h arr rs -> (start <$> rs) !! i = Some x -> startAt h arr i = Ok x.
Proof.
  intros Harr Hx. rewrite list_lookup_fmap in Hx.
  destruct (rs !! i) as [r|] eqn:Hr; [|discriminate]. injection Hx as <-.
  destruct (Forall2_lookup_r _ _ _ _ _ Harr Hr) as (l & Hl & Hh).
  unfold startAt. rewrite (entry_run _ _ _ _ _ Hl Hh). reflexivity.
Qed.

(** The search on a sorted array: every entry in front of the position starts
    at or before [s], every entry from it on starts after [s]. *)
Lemma search_run h (list : list loc) rs s :
  array_is h list rs -> sorted_by_start rs ->
  exists pos,
    search list s h = (Ok pos, h)
    /\ (pos <= length rs)%nat
    /\ Forall (fun r => start r <= s) (take pos rs)
    /\ Forall (fun r => s < start r) (drop pos rs).
Proof.
  intros Harr Hsorted.
  assert (Hstarts : StronglySorted Z.le (start <$> rs)).
  { eapply StronglySorted_fmap; [|exact Hsorted]. intros a b Hab. exact Hab. }
  destruct (findInsertPos_sorted (startAt h list) (start <$> rs) s
              (fun i x => startAt_array h list rs i x Harr) Hstarts
              (length list) 0%nat (length list))
    as (pos & Hpos & Hle & Hlow & Hhigh).
  - lia.
  - rewrite length_fmap, (Forall2_length _ _ _ Harr). lia.
  - constructor.
  - rewrite drop_ge; [constructor|].
    rewrite length_fmap, (Forall2_length _ _ _ Harr). lia.
  - exists pos. unfold search. rewrite Hpos.
    rewrite length_fmap in Hle. rewrite <- fmap_take in Hlow.
    rewrite <- fmap_drop in Hhigh.
    apply (proj1 (Forall_fmap start (fun x => x <= s) (take pos rs))) in Hlow.
    apply (proj1 (Forall_fmap start (fun x => s < x) (drop pos rs))) in Hhigh.
    split; [reflexivity|]. split; [exact Hle|]. split; [exact Hlow | exact Hhigh].
Qed.

(** ** The two merge steps *)

Lemma array_is_snoc_inv h (arr : list loc) a rs :
  array_is h (arr ++ [a]) rs ->
  exists rs' ra, rs = rs' ++ [ra] /\ array_is h arr rs' /\ h !! a = Some ra.
Proof.
  intros Harr. apply Forall2_app_inv_l in Harr as (rs' & tl & Hrs' & Htl & ->).
  apply Forall2_cons_inv_l in Htl as (ra & tl' & Ha & Hnil & ->).
  apply Forall2_nil_inv_l in Hnil as ->. eauto.
Qed.

Lemma array_is_cons_inv h (arr : list loc) b rs :
  array_is h (b :: arr) rs ->
  exists rb rs', rs = rb :: rs' /\ h !! b = Some rb /\ array_is h arr rs'.
Proof.
  intros Harr. apply Forall2_cons_inv_l in Harr as (rb & rs' & Hb & Hrest & ->).
  eauto.
Qed.

(** The left merge writes at most the object in front of the new one. *)
Lemma mergeLeft_run h (ll1 ll2 : list loc) l1 l2 fresh new :
  array_is h ll1 l1 -> array_is h ll2 l2 -> h !! fresh = Some new ->
  NoDup (ll1 ++ fresh :: ll2) ->
  exists ll1' cur h',
    mergeLeft (ll1 ++ fresh :: ll2) (length ll1) h
    = (Ok (ll1' ++ cur :: ll2, length ll1'), h')
    /\ array_is h' ll1' (fst (merge_left l1 new))
    /\ h' !! cur = Some (snd (merge_left l1 new))
    /\ array_is h' ll2 l2
    /\ NoDup (ll1' ++ cur :: ll2)
    /\ (forall l, last ll1 <> Some l -> h' !! l = h !! l)
    /\ (cur = fresh \/ last ll1 = Some cur).
Proof.
  intros H1 H2 Hfresh Hnodup.
  destruct ll1 as [|a ll1 _] using rev_ind.
  - apply Forall2_nil_inv_l in H1 as ->.
    exists [], fresh, h. unfold mergeLeft, merge_left. simpl.
    repeat split; try assumption; try constructor; auto.
  - apply array_is_snoc_inv in H1 as (l1' & ra & -> & H1 & Ha).
    assert (Elen : length (ll1 ++ [a]) = S (length ll1))
      by (rewrite length_app; simpl; lia).
    assert (Enext : (ll1 ++ [a]) ++ fresh :: ll2 = ll1 ++ a :: fresh :: ll2)
      by (rewrite <- app_assoc; reflexivity).
    unfold mergeLeft, merge_left. rewrite Elen, Enext in *.
    change (0 <? S (length ll1))%nat with true. lazy beta iota.
    replace (S (length ll1) - 1)%nat with (length ll1) by lia.
    unfold bind.
    rewrite (mergeNeighbours_run _ _ a fresh ra new); try assumption; cycle 1.
    { apply list_lookup_middle. reflexivity. }
    { rewrite lookup_app_r by lia.
      replace (length ll1 + 1 - length ll1)%nat with 1%nat by lia. reflexivity. }
    rewrite last_snoc, removelast_last.
    apply NoDup_app in Hnodup as (Hnd1 & Hcross & Hnd2).
    apply NoDup_cons in Hnd2 as (Ha2 & Hnd2).
    apply NoDup_cons in Hnd2 as (Hf2 & Hnd2).
    destruct (joins ra new).
    + exists ll1, a, (<[a := extend ra new]> h). simpl.
      replace (length ll1 + 1)%nat with (S (length ll1)) by lia.
      assert (Hdel : delete (S (length ll1)) (ll1 ++ a :: fresh :: ll2)
                     = ll1 ++ a :: ll2).
      { rewrite <- Enext, <- Elen, delete_middle, <- app_assoc. reflexivity. }
      rewrite Hdel.
      split; [reflexivity|]. split.
      { apply array_is_write; [exact H1|]. intros Hin. eapply Hcross; [exact Hin|]. left. }
      split.
      { apply list_lookup_insert_eq. eapply lookup_lt_Some. exact Ha. }
      split.
      { apply array_is_write; [exact H2|]. intros Hin. apply Ha2. right. exact Hin. }
      split.
      { apply NoDup_app. split; [exact Hnd1|]. split.
        - intros x Hx Hin. apply (Hcross x Hx).
          apply elem_of_cons in Hin as [->|Hin]; [left | right; right; exact Hin].
        - apply NoDup_cons. split; [|exact Hnd2].
          intros Hin. apply Ha2. right. exact Hin. }
      split.
      { intros l Hl. apply list_lookup_insert_ne. intros ->. apply Hl.
        apply last_snoc. }
      { right. apply last_snoc. }
    + exists (ll1 ++ [a]), fresh, h. simpl.
      rewrite Elen, Enext.
      split; [reflexivity|]. split.
      { apply array_is_app; [exact H1|]. constructor; [exact Ha | constructor]. }
      split; [exact Hfresh|]. split; [exact H2|]. split.
      { apply NoDup_app. split; [exact Hnd1|]. split; [exact Hcross|].
        apply NoDup_cons. split; [exact Ha2|]. apply NoDup_cons. split; assumption. }
      split; auto.
Qed.

(** The right merge writes at most the object at the position. *)
Lemma mergeRight_run h (ll1 ll2 : list loc) l1 l2 cur rc :
  array_is h ll1 l1 -> h !! cur = Some rc -> array_is h ll2 l2 ->
  NoDup (ll1 ++ cur :: ll2) ->
  exists next h',
    mergeRight (ll1 ++ cur :: ll2) (length ll1) h = (Ok next, h')
    /\ array_is h' next (l1 ++ merge_right rc l2)
    /\ NoDup next
    /\ (forall l, l <> cur -> h' !! l = h !! l).
Proof.
  intros H1 Hcur H2 Hnodup. pose proof Hnodup as Hall.
  apply NoDup_app in Hnodup as (Hnd1 & Hcross & Hnd2).
  apply NoDup_cons in Hnd2 as (Hc2 & Hnd2).
  unfold mergeRight.
  destruct ll2 as [|b ll2].
  - apply Forall2_nil_inv_l in H2 as ->. simpl.
    replace (length ll1 <? length (ll1 ++ [cur]) - 1)%nat with false
      by (symmetry; apply Nat.ltb_ge; rewrite length_app; simpl; lia).
    exists (ll1 ++ [cur]), h. split; [reflexivity|]. split; [|auto].
    apply array_is_app; [exact H1|]. constructor; [exact Hcur | constructor].
  - apply array_is_cons_inv in H2 as (rb & l2' & -> & Hb & H2).
    replace (length ll1 <? length (ll1 ++ cur :: b :: ll2) - 1)%nat with true
      by (symmetry; apply Nat.ltb_lt; rewrite length_app; simpl; lia).
    lazy beta iota.
    unfold bind.
    rewrite (mergeNeighbours_run _ _ cur b rc rb); try assumption; cycle 1.
    { apply list_lookup_middle. reflexivity. }
    { rewrite lookup_app_r by lia.
      replace (length ll1 + 1 - length ll1)%nat with 1%nat by lia. reflexivity. }
    simpl merge_right. destruct (joins rc rb).
    + exists (ll1 ++ cur :: ll2), (<[cur := extend rc rb]> h). simpl.
      assert (Hdel : delete (length ll1 + 1)%nat (ll1 ++ cur :: b :: ll2)
                     = ll1 ++ cur :: ll2).
      { change (cur :: b :: ll2) with ([cur] ++ b :: ll2).
        rewrite app_assoc.
        replace (length ll1 + 1)%nat with (length (ll1 ++ [cur]))
          by (rewrite length_app; simpl; lia).
        rewrite delete_middle, <- app_assoc. reflexivity. }
      rewrite Hdel. split; [reflexivity|]. split.
      { apply array_is_app.
        - apply array_is_write; [exact H1|]. intros Hin.
          eapply Hcross; [exact Hin|]. left.
        - constructor.
          + apply list_lookup_insert_eq. eapply lookup_lt_Some. exact Hcur.
          + apply array_is_write; [exact H2|]. intros Hin. apply Hc2. right. exact Hin. }
      split.
      { apply NoDup_cons in Hnd2 as (_ & Hnd2).
        apply NoDup_app. split; [exact Hnd1|]. split.
        - intros x Hx Hin. apply (Hcross x Hx).
          apply elem_of_cons in Hin as [->|Hin]; [left | right; right; exact Hin].
        - apply NoDup_cons. split; [|exact Hnd2].
          intros Hin. apply Hc2. right. exact Hin. }
      { intros l Hl. apply list_lookup_insert_ne. intros ->. apply Hl. reflexivity. }
    + exists (ll1 ++ cur :: b :: ll2), h. simpl.
      split; [reflexivity|]. split; [|auto].
      apply array_is_app; [exact H1|].
      constructor; [exact Hcur|]. constructor; [exact Hb | exact H2].
Qed.

(** ** The whole call *)

Lemma valid_meta_guard meta' :
  valid_meta meta' ->
  negb (truthy meta') || negb (is_string (get_prop meta' "name")) = false.
Proof. intros (fields & name & -> & Hname). simpl. rewrite Hname. reflexivity. Qed.

Lemma checkPrevious_run h (ll1 ll2 : list loc) l1 s :
  array_is h ll1 l1 ->
  checkPrevious (ll1 ++ ll2) (length ll1) s h
  = if prev_overlaps l1 s
    then (Throw (Error "overlap with previous range"), h)
    else (Ok tt, h).
Proof.
  intros H1. unfold checkPrevious, prev_overlaps.
  destruct ll1 as [|a ll1 _] using rev_ind.
  - apply Forall2_nil_inv_l in H1 as ->. reflexivity.
  - apply array_is_snoc_inv in H1 as (l1' & ra & -> & H1 & Ha).
    rewrite last_snoc.
    assert (Elen : length (ll1 ++ [a]) = S (length ll1))
      by (rewrite length_app; simpl; lia).
    rewrite Elen. change (0 <? S (length ll1))%nat with true. lazy beta iota.
    replace (S (length ll1) - 1)%nat with (length ll1) by lia.
    unfold bind. rewrite (entry_run _ _ a ra); [|
      rewrite <- app_assoc; apply list_lookup_middle; reflexivity | exact Ha].
    destruct (s <=? end_ ra); reflexivity.
Qed.

Lemma checkNext_run h (ll1 ll2 : list loc) l2 e :
  array_is h ll2 l2 ->
  checkNext (ll1 ++ ll2) (length ll1) e h
  = if next_overlaps l2 e
    then (Throw (Error "overlap with next range"), h)
    else (Ok tt, h).
Proof.
  intros H2. unfold checkNext, next_overlaps.
  destruct ll2 as [|b ll2].
  - apply Forall2_nil_inv_l in H2 as ->. rewrite app_nil_r.
    rewrite Nat.ltb_irrefl. reflexivity.
  - apply array_is_cons_inv in H2 as (rb & l2' & -> & Hb & H2).
    replace (length ll1 <? length (ll1 ++ b :: ll2))%nat with true
      by (symmetry; apply Nat.ltb_lt; rewrite length_app; simpl; lia).
    lazy beta iota. unfold bind.
    rewrite (entry_run _ _ b rb); [| apply list_lookup_middle; reflexivity | exact Hb].
    simpl. destruct (start rb <=? e); reflexivity.
Qed.

(** What a call does on an array of distinct references whose entries are
    sorted by start: it fails at one of the two checks without touching the
    heap, or returns an array whose entries are [merged] and leaves every
    object but the left neighbour as it was. *)
Lemma addRangeNoOverlap_run h (list : list loc) rs start' end' meta' :
  valid_meta meta' -> array_is h list rs -> NoDup list -> sorted_by_start rs ->
  let s := fst (normalizeRange start' end') in
  let e := snd (normalizeRange start' end') in
  let new := {| start := s; end_ := e; meta := meta' |} in
  exists pos,
    (pos <= length rs)%nat
    /\ Forall (fun r => start r <= s) (take pos rs)
    /\ Forall (fun r => s < start r) (drop pos rs)
    /\ match prev_overlaps (take pos rs) s, next_overlaps (drop pos rs) e with
       | true, _ =>
           addRangeNoOverlap list start' end' meta' h
           = (Throw (Error "overlap with previous range"), h)
       | false, true =>
           addRangeNoOverlap list start' end' meta' h
           = (Throw (Error "overlap with next range"), h)
       | false, false =>
           exists next h',
             addRangeNoOverlap list start' end' meta' h = (Ok next, h')
             /\ array_is h' next (merged (take pos rs) new (drop pos rs))
             /\ NoDup next
             /\ (forall l r, h !! l = Some r -> last (take pos list) <> Some l ->
                   h' !! l = Some r)
       end.
Proof.
  intros Hmeta Harr Hnodup Hsorted s e new.
  destruct (search_run h list rs s Harr Hsorted) as (pos & Hsearch & Hle & Hlow & Hhigh).
  exists pos. split; [exact Hle|]. split; [exact Hlow|]. split; [exact Hhigh|].
  unfold addRangeNoOverlap. rewrite (valid_meta_guard _ Hmeta).
  destruct (normalizeRange start' end') as [s0 e0] eqn:Hnorm. simpl in s, e.
  subst s e. rewrite (bind_ok _ _ _ _ _ Hsearch).
  pose proof (Forall2_take _ _ _ pos Harr) as H1.
  pose proof (Forall2_drop _ _ _ pos Harr) as H2.
  assert (Hlen1 : length (take pos list) = pos).
  { apply length_take_le. rewrite (Forall2_length _ _ _ Harr). exact Hle. }
  assert (Hprev : checkPrevious list pos s0 h
                  = if prev_overlaps (take pos rs) s0
                    then (Throw (Error "overlap with previous range"), h)
                    else (Ok tt, h)).
  { rewrite <- (checkPrevious_run h _ (drop pos list) _ s0 H1).
    rewrite take_drop, Hlen1. reflexivity. }
  assert (Hnext : checkNext list pos e0 h
                  = if next_overlaps (drop pos rs) e0
                    then (Throw (Error "overlap with next range"), h)
                    else (Ok tt, h)).
  { rewrite <- (checkNext_run h (take pos list) _ _ e0 H2).
    rewrite take_drop, Hlen1. reflexivity. }
  destruct (prev_overlaps (take pos rs) s0);
    [rewrite (bind_throw _ _ _ _ _ Hprev); reflexivity|].
  rewrite (bind_ok _ _ _ _ _ Hprev).
  destruct (next_overlaps (drop pos rs) e0);
    [rewrite (bind_throw _ _ _ _ _ Hnext); reflexivity|].
  rewrite (bind_ok _ _ _ _ _ Hnext).
  rewrite (bind_ok _ _ h (length h) (h ++ [new])) by reflexivity.
  set (h1 := h ++ [new]). set (fresh := length h).
  assert (Hfresh : h1 !! fresh = Some new).
  { subst h1 fresh. apply list_lookup_middle. reflexivity. }
  assert (Hnew : fresh ∉ list).
  { intros Hin. pose proof (array_is_bound _ _ _ _ Harr Hin). subst fresh. lia. }
  assert (Hnd : NoDup (take pos list ++ fresh :: drop pos list)).
  { rewrite <- (take_drop pos list) in Hnodup, Hnew.
    apply NoDup_app in Hnodup as (Hnd1 & Hcross & Hnd2).
    apply NoDup_app. split; [exact Hnd1|]. split.
    - intros x Hx Hin. apply elem_of_cons in Hin as [->|Hin].
      + apply Hnew. apply elem_of_app. left. exact Hx.
      + exact (Hcross x Hx Hin).
    - apply NoDup_cons. split; [|exact Hnd2].
      intros Hin. apply Hnew. apply elem_of_app. right. exact Hin. }
  destruct (mergeLeft_run h1 (take pos list) (drop pos list) (take pos rs) (drop pos rs)
              fresh new (array_is_alloc _ _ _ _ H1) (array_is_alloc _ _ _ _ H2)
              Hfresh Hnd)
    as (ll1' & cur & h2 & Hleft & Hl1 & Hcur & Hl2 & Hnd' & Hframe1 & Hwho).
  rewrite Hlen1 in Hleft.
  rewrite (bind_ok _ _ _ _ _ Hleft). simpl fst. simpl snd.
  destruct (mergeRight_run h2 ll1' (drop pos list) _ (drop pos rs) cur _
              Hl1 Hcur Hl2 Hnd')
    as (next & h3 & Hright & Hfinal & Hnd3 & Hframe2).
  exists next, h3. split; [exact Hright|]. split; [|split; [exact Hnd3|]].
  - unfold merged. destruct (merge_left (take pos rs) new). exact Hfinal.
  - intros l r Hl Hnot.
    assert (Hlt : (l < length h)%nat) by (eapply lookup_lt_Some; exact Hl).
    rewrite Hframe2, Hframe1; [| exact Hnot |].
    + subst h1. apply lookup_app_l_Some. exact Hl.
    + destruct Hwho as [->|Hlast]; [subst fresh; lia|].
      intros ->. apply Hnot. exact Hlast.
Qed.

(** ** Ordered lists of entries *)

Lemma normalizeRange_clamp a b :
  normalizeRange a b = (clamp_day (Z.min a b), clamp_day (Z.max a b)).
Proof.
  unfold normalizeRange, clamp_day.
  destruct (Z.ltb_spec b a); f_equal; lia.
Qed.

Lemma normalizeRange_ordered a b :
  fst (normalizeRange a b) <= snd (normalizeRange a b).
Proof. rewrite normalizeRange_clamp. unfold clamp_day. simpl. lia. Qed.

Lemma Sorted_app_inv {A} (R : A -> A -> Prop) (l1 l2 : list A) :
  Sorted R (l1 ++ l2) ->
  Sorted R l1 /\ Sorted R l2
  /\ (forall a b, last l1 = Some a -> head l2 = Some b -> R a b).
Proof.
  induction l1 as [|x l1 IH]; simpl; intros Hs.
  - repeat split; [constructor | exact Hs | discriminate].
  - apply Sorted_inv in Hs as [Hs Hhd].
    destruct (IH Hs) as (H1 & H2 & Hjoin).
    split; [|split; [exact H2|]].
    + constructor; [exact H1|]. destruct l1; [constructor|].
      inversion Hhd; subst. constructor. assumption.
    + intros a b Ha Hb. destruct l1 as [|y l1].
      * injection Ha as <-. destruct l2; [discriminate|].
        injection Hb as <-. inversion Hhd; subst. assumption.
      * apply Hjoin; assumption.
Qed.

Lemma Sorted_app_intro {A} (R : A -> A -> Prop) (l1 l2 : list A) :
  Sorted R l1 -> Sorted R l2 ->
  (forall a b, last l1 = Some a -> head l2 = Some b -> R a b) ->
  Sorted R (l1 ++ l2).
Proof.
  induction l1 as [|x l1 IH]; simpl; intros H1 H2 Hjoin; [exact H2|].
  apply Sorted_inv in H1 as [H1 Hhd]. constructor.
  - apply IH; [exact H1 | exact H2 |].
    intros a b Ha Hb. apply Hjoin; [|exact Hb]. destruct l1; [discriminate | exact Ha].
  - destruct l1 as [|y l1]; simpl.
    + destruct l2 as [|b l2]; [constructor|]. constructor. apply Hjoin; reflexivity.
    + inversion Hhd; subst. constructor. assumption.
Qed.

Lemma ordered_app_inv l1 l2 :
  ordered (l1 ++ l2) ->
  ordered l1 /\ ordered l2
  /\ (forall a b, last l1 = Some a -> head l2 = Some b -> end_ a < start b).
Proof.
  intros [Hwf Hno]. apply Forall_app in Hwf as [Hwf1 Hwf2].
  apply Sorted_app_inv in Hno as (H1 & H2 & Hjoin).
  repeat split; assumption.
Qed.

Lemma ordered_cons_inv a l :
  ordered (a :: l) ->
  start a <= end_ a /\ ordered l /\ (forall b, head l = Some b -> end_ a < start b).
Proof.
  intros [Hwf Hno]. apply Forall_cons in Hwf as [Ha Hwf].
  apply Sorted_inv in Hno as [Hno Hhd].
  repeat split; try assumption.
  intros b Hb. destruct l; [discriminate|]. injection Hb as <-.
  inversion Hhd; subst. assumption.
Qed.

(** In an ordered list every entry lies entirely in front of the entries
    after it. *)
Lemma ordered_strongly rs :
  ordered rs -> StronglySorted (fun a b => end_ a < start b) rs.
Proof.
  induction rs as [|a rs IH]; intros Hord; [constructor|].
  apply ordered_cons_inv in Hord as (Ha & Hrs & Hhd).
  constructor; [apply IH; exact Hrs|].
  destruct rs as [|b rs]; [constructor|].
  specialize (Hhd b eq_refl).
  pose proof (IH Hrs) as Hss. apply StronglySorted_inv in Hss as [_ Hall].
  destruct Hrs as [Hwf _]. apply Forall_cons in Hwf as [Hb _].
  constructor; [exact Hhd|].
  eapply Forall_impl; [exact Hall|]. simpl. intros c Hc. lia.
Qed.

Lemma ordered_sorted rs : ordered rs -> sorted_by_start rs.
Proof.
  intros Hord. pose proof (ordered_strongly rs Hord) as Hss.
  destruct Hord as [Hwf _]. unfold sorted_by_start.
  induction Hss as [|a rs Hss IH Hall]; [constructor|].
  apply Forall_cons in Hwf as [Ha Hwf].
  constructor; [apply IH; exact Hwf|].
  eapply Forall_impl; [exact Hall|]. simpl. intros c Hc. lia.
Qed.

Lemma ordered_NoDup rs : ordered rs -> NoDup rs.
Proof.
  intros Hord. pose proof (ordered_strongly rs Hord) as Hss.
  destruct Hord as [Hwf _].
  induction Hss as [|a rs Hss IH Hall]; [constructor|].
  apply Forall_cons in Hwf as [Ha Hwf].
  constructor; [|apply IH; exact Hwf].
  intros Hin. rewrite Forall_forall in Hall. specialize (Hall a Hin). lia.
Qed.

Lemma timeslot_list_ordered h (arr : list loc) rs :
  timeslot_list h arr rs -> ordered rs.
Proof. intros (_ & Hwf & _ & Hno). split; assumption. Qed.

(** Distinct entries sit behind distinct references. *)
Lemma timeslot_list_NoDup h (arr : list loc) rs :
  timeslot_list h arr rs -> NoDup arr.
Proof.
  intros Hts. pose proof (ordered_NoDup rs (timeslot_list_ordered _ _ _ Hts)) as Hnd.
  destruct Hts as (Harr & _).
  apply NoDup_alt. intros i j l Hi Hj.
  destruct (array_is_lookup _ _ _ _ _ Harr Hi) as (r & Hr & Hl).
  destruct (array_is_lookup _ _ _ _ _ Harr Hj) as (r' & Hr' & Hl').
  rewrite Hl in Hl'. injection Hl' as <-.
  eapply NoDup_lookup; eassumption.
Qed.

Lemma ordered_last_end rs z r :
  ordered rs -> last rs = Some z -> r ∈ rs -> end_ r <= end_ z.
Proof.
  intros Hord Hlast Hin. apply last_Some in Hlast as [rs' ->].
  pose proof (ordered_strongly _ Hord) as Hss.
  apply StronglySorted_app in Hss as (Hcross & _ & _).
  apply elem_of_app in Hin as [Hin|Hin].
  - specialize (Hcross r z Hin ltac:(left)).
    destruct Hord as [Hwf _]. unfold well_formed in Hwf. rewrite Forall_forall in Hwf.
    specialize (Hwf z ltac:(apply elem_of_app; right; left)). simpl in *. lia.
  - apply list_elem_of_singleton in Hin as ->. lia.
Qed.

Lemma sorted_head_start rs b r :
  sorted_by_start rs -> head rs = Some b -> r ∈ rs -> start b <= start r.
Proof.
  intros Hs Hhead Hin. destruct rs as [|b' rs]; [discriminate|].
  injection Hhead as ->. apply StronglySorted_inv in Hs as [_ Hall].
  apply elem_of_cons in Hin as [->|Hin]; [lia|].
  rewrite Forall_forall in Hall. exact (Hall r Hin).
Qed.

(** ** The entries after an insertion *)

Lemma merge_left_shape before new :
  merge_left before new = (before, new)
  \/ exists before' a,
       before = before' ++ [a] /\ merge_left before new = (before', extend a new).
Proof.
  unfold merge_left. destruct before as [|a before _] using rev_ind; [left; reflexivity|].
  rewrite last_snoc, removelast_last.
  destruct (joins a new); [right; eauto | left; reflexivity].
Qed.

Lemma merge_right_shape cur after :
  merge_right cur after = cur :: after
  \/ exists b rest, after = b :: rest /\ merge_right cur after = extend cur b :: rest.
Proof.
  unfold merge_right. destruct after as [|b rest]; [left; reflexivity|].
  destruct (joins cur b); [right; eauto | left; reflexivity].
Qed.

Lemma prev_overlaps_snoc before a s :
  prev_overlaps (before ++ [a]) s = false -> end_ a < s.
Proof. unfold prev_overlaps. rewrite last_snoc. apply Z.leb_gt. Qed.

Lemma next_overlaps_cons b rest e :
  next_overlaps (b :: rest) e = false -> e < start b.
Proof. unfold next_overlaps. simpl. apply Z.leb_gt. Qed.

(** Adjacent entries stay apart. *)
Lemma merged_non_overlapping before new after :
  non_overlapping (before ++ after) ->
  prev_overlaps before (start new) = false ->
  next_overlaps after (end_ new) = false ->
  non_overlapping (merged before new after).
Proof.
  unfold non_overlapping. intros Hno Hprev Hnext.
  apply Sorted_app_inv in Hno as (Hb & Ha & _).
  assert (Hleft : Sorted (fun a b => end_ a < start b) (merge_left before new).1
                  /\ end_ (merge_left before new).2 = end_ new
                  /\ forall z, last (merge_left before new).1 = Some z ->
                       end_ z < start (merge_left before new).2).
  { destruct (merge_left_shape before new) as [->|(before' & a & -> & ->)]; simpl.
    - split; [exact Hb|]. split; [reflexivity|].
      intros z Hz. apply last_Some in Hz as [l' ->].
      apply prev_overlaps_snoc in Hprev. exact Hprev.
    - apply Sorted_app_inv in Hb as (Hb' & _ & Hjoin).
      split; [exact Hb'|]. split; [reflexivity|].
      intros z Hz. apply Hjoin; [exact Hz | reflexivity]. }
  unfold merged. destruct (merge_left before new) as [before' cur]. simpl in Hleft.
  destruct Hleft as (Hb' & Hend & Hlast). rewrite <- Hend in Hnext.
  apply Sorted_app_intro; [exact Hb' | |].
  - destruct (merge_right_shape cur after) as [->|(b & rest & -> & ->)].
    + constructor; [exact Ha|]. destruct after as [|b rest]; constructor.
      apply next_overlaps_cons in Hnext. exact Hnext.
    + apply Sorted_inv in Ha as [Hrest Hhd].
      constructor; [exact Hrest|]. destruct rest; constructor.
      inversion Hhd; subst. assumption.
  - intros z c Hz Hc. specialize (Hlast z Hz).
    destruct (merge_right_shape cur after) as [E|(b & rest & -> & E)];
      rewrite E in Hc; injection Hc as <-; exact Hlast.
Qed.

(** The starts stay in ascending order. *)
Lemma merged_sorted before new after :
  sorted_by_start (before ++ after) ->
  Forall (fun r => start r <= start new) before ->
  Forall (fun r => start new < start r) after ->
  sorted_by_start (merged before new after).
Proof.
  unfold sorted_by_start. intros Hs Hlow Hhigh.
  apply StronglySorted_app in Hs as (_ & Hb & Ha).
  rewrite Forall_forall in Hlow. rewrite Forall_forall in Hhigh.
  assert (Hleft : StronglySorted (fun a b => start a <= start b) (merge_left before new).1
                  /\ start (merge_left before new).2 <= start new
                  /\ forall z, z ∈ (merge_left before new).1 ->
                       start z <= start (merge_left before new).2).
  { destruct (merge_left_shape before new) as [->|(before' & a & -> & ->)]; simpl.
    - split; [exact Hb|]. split; [lia | exact Hlow].
    - apply StronglySorted_app in Hb as (Hcross & Hb' & _).
      split; [exact Hb'|]. split.
      + apply Hlow. apply elem_of_app. right. left.
      + intros z Hz. apply Hcross; [exact Hz | left]. }
  unfold merged. destruct (merge_left before new) as [before' cur]. simpl in Hleft.
  destruct Hleft as (Hb' & Hcur & Hbelow).
  assert (Hright : exists c rest,
             merge_right cur after = c :: rest /\ start c = start cur
             /\ StronglySorted (fun a b => start a <= start b) rest
             /\ forall y, y ∈ rest -> y ∈ after).
  { destruct (merge_right_shape cur after) as [->|(b & rest & -> & ->)].
    - exists cur, after. repeat split; auto.
    - exists (extend cur b), rest. apply StronglySorted_inv in Ha as [Hrest _].
      repeat split; auto. intros y Hy. right. exact Hy. }
  destruct Hright as (c & rest & -> & Hc & Hrest & Hsub).
  apply StronglySorted_app_2; [| exact Hb' |].
  - intros z y Hz Hy. specialize (Hbelow z Hz).
    apply elem_of_cons in Hy as [->|Hy]; [lia|].
    specialize (Hhigh y (Hsub y Hy)). simpl in Hhigh. lia.
  - constructor; [exact Hrest|]. apply Forall_forall. intros y Hy.
    specialize (Hhigh y (Hsub y Hy)). simpl in Hhigh. lia.
Qed.

(** Entries with [start <= end] stay so. *)
Lemma merged_well_formed before new after :
  well_formed (before ++ after) ->
  start new <= end_ new ->
  prev_overlaps before (start new) = false ->
  next_overlaps after (end_ new) = false ->
  well_formed (merged before new after).
Proof.
  unfold well_formed. intros Hwf Hnew Hprev Hnext.
  apply Forall_app in Hwf as [Hb Ha].
  assert (Hleft : Forall (fun r => start r <= end_ r) (merge_left before new).1
                  /\ start (merge_left before new).2 <= end_ (merge_left before new).2
                  /\ end_ (merge_left before new).2 = end_ new).
  { destruct (merge_left_shape before new) as [->|(before' & a & -> & ->)]; simpl.
    - split; [exact Hb|]. split; [exact Hnew | reflexivity].
    - apply prev_overlaps_snoc in Hprev.
      apply Forall_app in Hb as [Hb' Hwa]. apply Forall_cons in Hwa as [Hwa _].
      split; [exact Hb'|]. split; [lia | reflexivity]. }
  unfold merged. destruct (merge_left before new) as [before' cur]. simpl in Hleft.
  destruct Hleft as (Hb' & Hcur & Hend). rewrite <- Hend in Hnext.
  apply Forall_app. split; [exact Hb'|].
  destruct (merge_right_shape cur after) as [->|(b & rest & -> & ->)].
  - constructor; assumption.
  - apply next_overlaps_cons in Hnext. apply Forall_cons in Ha as [Hwb Hrest].
    constructor; [simpl; lia | exact Hrest].
Qed.

Lemma guard_valid_meta meta' :
  negb (truthy meta') || negb (is_string (get_prop meta' "name")) = false ->
  valid_meta meta'.
Proof.
  intros Hguard. apply orb_false_iff in Hguard as [_ Hname].
  apply negb_false_iff in Hname. unfold is_string in Hname.
  destruct meta' as [| | | | |fields]; try discriminate. simpl in Hname.
  destruct (obj_get "name" fields) as [[| | |name| |]|] eqn:E; try discriminate.
  exists fields, name. split; [reflexivity | exact E].
Qed.

Lemma addRangeNoOverlap_Ok_valid_meta (list : list loc) start' end' meta' h next h' :
  addRangeNoOverlap list start' end' meta' h = (Ok next, h') -> valid_meta meta'.
Proof.
  intros Hrun. apply guard_valid_meta. unfold addRangeNoOverlap in Hrun.
  destruct (negb (truthy meta') || negb (is_string (get_prop meta' "name")));
    [discriminate | reflexivity].
Qed.

(** C1. A successful insertion into a list of timeslots that is sorted
    ascending by start and pairwise non-overlapping returns a list that is
    again sorted ascending by start and pairwise non-overlapping.  The array
    holds distinct objects, before and after; entries with [start <= end]
    stay so. *)
Theorem addRangeNoOverlap_keeps_invariant
    (h : heap) (list : list loc) (rs : Datatypes.list TimeslotRange)
    (start' end' : Z) (meta' : jsval) (next : Datatypes.list loc) (h' : heap) :
  array_is h list rs -> NoDup list ->
  sorted_by_start rs -> non_overlapping rs ->
  addRangeNoOverlap list start' end' meta' h = (Ok next, h') ->
  exists rs',
    array_is h' next rs' /\ NoDup next
    /\ sorted_by_start rs' /\ non_overlapping rs'
    /\ (well_formed rs -> well_formed rs').
Proof.
  intros Harr Hnd Hsorted Hno Hrun.
  pose proof (addRangeNoOverlap_Ok_valid_meta _ _ _ _ _ _ _ Hrun) as Hmeta.
  destruct (addRangeNoOverlap_run h list rs start' end' meta' Hmeta Harr Hnd Hsorted)
    as (pos & Hle & Hlow & Hhigh & Hres).
  destruct (prev_overlaps (take pos rs) (normalizeRange start' end').1) eqn:Hprev;
    [rewrite Hres in Hrun; discriminate|].
  destruct (next_overlaps (drop pos rs) (normalizeRange start' end').2) eqn:Hnext;
    [rewrite Hres in Hrun; discriminate|].
  destruct Hres as (next0 & h0 & Hrun0 & Harr' & Hnd' & _).
  rewrite Hrun0 in Hrun. injection Hrun as <- <-.
  eexists. split; [exact Harr'|]. split; [exact Hnd'|].
  rewrite <- (take_drop pos rs) in Hsorted, Hno.
  split; [|split].
  - apply merged_sorted; assumption.
  - apply merged_non_overlapping; assumption.
  - intros Hwf. rewrite <- (take_drop pos rs) in Hwf.
    apply merged_well_formed; try assumption. apply normalizeRange_ordered.
Qed.

Lemma addRangeNoOverlap_keeps_invariant_witness :
  exists rs',
    array_is [slot 0 7199 "focus"; slot 3600 7199 "focus"] [0%nat] rs'
    /\ NoDup [0%nat]
    /\ sorted_by_start rs' /\ non_overlapping rs'
    /\ (well_formed [slot 0 3599 "focus"] -> well_formed rs').
Proof.
  apply (addRangeNoOverlap_keeps_invariant
           [slot 0 3599 "focus"] [0%nat] [slot 0 3599 "focus"]
           3600 7199 (named "focus")).
  - repeat constructor.
  - repeat constructor. apply not_elem_of_nil.
  - repeat constructor.
  - repeat constructor.
  - vm_compute. reflexivity.
Defined.

(** C2. On a well-formed, sorted, non-overlapping list a call with a valid
    meta raises one of the two overlap errors exactly when the normalized
    range shares a second with some entry of the list: looking at the two
    neighbours of the insertion position finds every overlap.  A call that
    raises, for whatever reason, leaves the heap, and so the list, as it
    was. *)
Theorem addRangeNoOverlap_overlap_iff
    (h : heap) (list : list loc) (rs : Datatypes.list TimeslotRange)
    (start' end' : Z) (meta' : jsval) :
  timeslot_list h list rs ->
  let s := fst (normalizeRange start' end') in
  let e := snd (normalizeRange start' end') in
  (valid_meta meta' ->
   ((exists err h',
        addRangeNoOverlap list start' end' meta' h = (Throw err, h')
        /\ overlap_error err)
    <-> Exists (intersects s e) rs))
  /\ (forall err h',
        addRangeNoOverlap list start' end' meta' h = (Throw err, h') ->
        h' = h /\ array_is h' list rs).
Proof.
  intros Hts s e.
  destruct (negb (truthy meta') || negb (is_string (get_prop meta' "name")))
    eqn:Hguard.
  { (* the meta is refused before anything is read *)
    split.
    - intros Hmeta. rewrite (valid_meta_guard _ Hmeta) in Hguard. discriminate.
    - intros err h' Hrun. unfold addRangeNoOverlap in Hrun. rewrite Hguard in Hrun.
      injection Hrun as <- <-. split; [reflexivity | apply Hts]. }
  pose proof (guard_valid_meta _ Hguard) as Hmeta.
  cut (((exists err h',
          addRangeNoOverlap list start' end' meta' h = (Throw err, h')
          /\ overlap_error err)
        <-> Exists (intersects s e) rs)
       /\ (forall err h',
             addRangeNoOverlap list start' end' meta' h = (Throw err, h') ->
             h' = h /\ array_is h' list rs)).
  { intros [Hiff Hkeep]. split; [intros _; exact Hiff | exact Hkeep]. }
  pose proof (timeslot_list_ordered _ _ _ Hts) as Hord.
  pose proof (timeslot_list_NoDup _ _ _ Hts) as Hnd.
  destruct Hts as (Harr & _ & Hsorted & _).
  destruct (addRangeNoOverlap_run h list rs start' end' meta' Hmeta Harr Hnd Hsorted)
    as (pos & Hle & Hlow & Hhigh & Hres).
  fold s e in Hlow, Hhigh, Hres.
  pose proof (normalizeRange_ordered start' end') as Hse. fold s e in Hse.
  rewrite <- (take_drop pos rs) in Hord.
  apply ordered_app_inv in Hord as (Hord1 & Hord2 & _).
  destruct (prev_overlaps (take pos rs) s) eqn:Hprev.
  { (* the previous entry is hit *)
    split.
    - split.
      + intros _. unfold prev_overlaps in Hprev.
        destruct (last (take pos rs)) as [z|] eqn:Hz; [|discriminate].
        apply Z.leb_le in Hprev.
        assert (Hin : z ∈ take pos rs).
        { apply last_Some in Hz as [l' ->]. apply elem_of_app. right. left. }
        rewrite Forall_forall in Hlow. specialize (Hlow z Hin). simpl in Hlow.
        apply Exists_exists. exists z. split.
        * rewrite <- (take_drop pos rs).
          apply elem_of_app. left. exact Hin.
        * unfold intersects. lia.
      + intros _. eexists _, h. split; [exact Hres | left; reflexivity].
    - intros err h' Hrun. rewrite Hres in Hrun. injection Hrun as <- <-.
      split; [reflexivity | exact Harr]. }
  destruct (next_overlaps (drop pos rs) e) eqn:Hnext.
  { (* the next entry is hit *)
    split.
    - split.
      + intros _. unfold next_overlaps in Hnext.
        destruct (head (drop pos rs)) as [b|] eqn:Hb; [|discriminate].
        apply Z.leb_le in Hnext.
        assert (Hin : b ∈ drop pos rs).
        { destruct (drop pos rs); [discriminate|]. injection Hb as ->. left. }
        rewrite Forall_forall in Hhigh. specialize (Hhigh b Hin). simpl in Hhigh.
        destruct Hord2 as [Hwf2 _]. unfold well_formed in Hwf2.
        rewrite Forall_forall in Hwf2. specialize (Hwf2 b Hin). simpl in Hwf2.
        apply Exists_exists. exists b. split.
        * rewrite <- (take_drop pos rs).
          apply elem_of_app. right. exact Hin.
        * unfold intersects. lia.
      + intros _. eexists _, h. split; [exact Hres | right; reflexivity].
    - intros err h' Hrun. rewrite Hres in Hrun. injection Hrun as <- <-.
      split; [reflexivity | exact Harr]. }
  (* neither neighbour is hit: the call succeeds and nothing intersects *)
  destruct Hres as (next & h1 & Hrun1 & _).
  split.
  - split.
    + intros (err & h' & Hrun & _). rewrite Hrun1 in Hrun. discriminate.
    + intros Hex. exfalso. apply Exists_exists in Hex as (r & Hin & Hs & He).
      rewrite <- (take_drop pos rs) in Hin.
      apply elem_of_app in Hin as [Hin|Hin].
      * unfold prev_overlaps in Hprev.
        destruct (last (take pos rs)) as [z|] eqn:Hz.
        -- apply Z.leb_gt in Hprev.
           pose proof (ordered_last_end _ z r Hord1 Hz Hin). lia.
        -- apply last_None in Hz. rewrite Hz in Hin. inversion Hin.
      * unfold next_overlaps in Hnext.
        destruct (head (drop pos rs)) as [b|] eqn:Hb.
        -- apply Z.leb_gt in Hnext.
           pose proof (sorted_head_start _ b r (ordered_sorted _ Hord2) Hb Hin). lia.
        -- destruct (drop pos rs); [inversion Hin | discriminate].
  - intros err h' Hrun. rewrite Hrun1 in Hrun. discriminate.
Qed.

Lemma addRangeNoOverlap_overlap_iff_witness :
  ((exists err h',
       addRangeNoOverlap [0%nat] 2000 1000 (named "x") [slot 0 7199 "focus"]
       = (Throw err, h')
       /\ overlap_error err)
   <-> Exists (intersects 1000 2000) [slot 0 7199 "focus"])
  /\ (forall err h',
        addRangeNoOverlap [0%nat] 2000 1000 (named "x") [slot 0 7199 "focus"]
        = (Throw err, h') ->
        h' = [slot 0 7199 "focus"]
        /\ array_is h' [0%nat] [slot 0 7199 "focus"]).
Proof.
  destruct (addRangeNoOverlap_overlap_iff
              [slot 0 7199 "focus"] [0%nat] [slot 0 7199 "focus"]
              2000 1000 (named "x")) as [Hiff Hkeep].
  - repeat split; repeat constructor; simpl; lia.
  - split; [|exact Hkeep]. apply Hiff.
    exists [("name", JStr "x")], "x". split; reflexivity.
Defined.

(** C7. On the empty list a range with [0 <= start <= end <= 86399] and a
    valid meta is inserted as the single entry, unchanged by normalization;
    normalization puts the smaller endpoint first and clamps both endpoints
    to the day. *)
Theorem addRangeNoOverlap_empty
    (h : heap) (start' end' : Z) (meta' : jsval) :
  0 <= start' -> start' <= end' -> end' <= 86399 -> valid_meta meta' ->
  run_contents (addRangeNoOverlap [] start' end' meta') h
  = Ok [{| start := start'; end_ := end'; meta := meta' |}]
  /\ normalizeRange start' end' = (start', end')
  /\ forall a b,
       normalizeRange a b = (clamp_day (Z.min a b), clamp_day (Z.max a b)).
Proof.
  intros H0 Hle H1 Hmeta.
  assert (Hnorm : normalizeRange start' end' = (start', end')).
  { rewrite normalizeRange_clamp. unfold clamp_day. f_equal; lia. }
  split; [|split; [exact Hnorm | exact normalizeRange_clamp]].
  destruct (addRangeNoOverlap_run h [] [] start' end' meta' Hmeta
              ltac:(constructor) ltac:(constructor) ltac:(constructor))
    as (pos & Hpos & _ & _ & Hres).
  rewrite Hnorm in Hres. simpl in Hres.
  replace (take pos []) with (@nil TimeslotRange) in Hres by (destruct pos; reflexivity).
  replace (drop pos []) with (@nil TimeslotRange) in Hres by (destruct pos; reflexivity).
  simpl in Hres. destruct Hres as (next & h' & Hrun & Harr & _).
  unfold run_contents. rewrite Hrun.
  rewrite (array_is_contents _ _ _ Harr). reflexivity.
Qed.

Lemma addRangeNoOverlap_empty_witness :
  run_contents (addRangeNoOverlap [] 0 3599 (named "focus")) []
  = Ok [slot 0 3599 "focus"]
  /\ normalizeRange 0 3599 = (0, 3599)
  /\ forall a b,
       normalizeRange a b = (clamp_day (Z.min a b), clamp_day (Z.max a b)).
Proof.
  apply (addRangeNoOverlap_empty [] 0 3599 (named "focus")); try lia.
  exists [("name", JStr "focus")], "focus". split; reflexivity.
Defined.

(** ** Merging with the left neighbour *)

Lemma strict_eq_eq u v : strict_eq u v = true -> u = v.
Proof.
  destruct u as [[| | | | |]|], v as [[| | | | |]|]; simpl; try discriminate;
    try reflexivity.
  - intros E. apply Bool.eqb_prop in E. subst. reflexivity.
  - intros E. apply Z.eqb_eq in E. subst. reflexivity.
  - intros E. apply String.eqb_eq in E. subst. reflexivity.
Qed.

(** The insertion position behind an entry [a] that ends right before the
    new range. *)
Lemma position_after_left_neighbour l1 a l2 pos :
  ordered (l1 ++ a :: l2) ->
  (pos <= length (l1 ++ a :: l2))%nat ->
  Forall (fun r => start r <= end_ a + 1) (take pos (l1 ++ a :: l2)) ->
  Forall (fun r => end_ a + 1 < start r) (drop pos (l1 ++ a :: l2)) ->
  prev_overlaps (take pos (l1 ++ a :: l2)) (end_ a + 1) = false ->
  pos = S (length l1).
Proof.
  intros Hord Hle Hlow Hhigh Hprev.
  pose proof Hord as Hsplit.
  apply ordered_app_inv in Hsplit as (_ & Ha & _).
  apply ordered_cons_inv in Ha as (Hwfa & Hl2 & Hnext).
  destruct (Nat.lt_trichotomy pos (S (length l1))) as [Hlt|[Heq|Hgt]];
    [exfalso | exact Heq | exfalso].
  - (* [a] would lie behind the position *)
    rewrite Forall_lookup in Hhigh.
    specialize (Hhigh (length l1 - pos)%nat a). simpl in Hhigh.
    rewrite lookup_drop in Hhigh.
    replace (pos + (length l1 - pos))%nat with (length l1) in Hhigh by lia.
    rewrite list_lookup_middle in Hhigh by reflexivity.
    specialize (Hhigh eq_refl). lia.
  - (* the entry after [a] would lie in front of the position *)
    destruct l2 as [|b l2]; [rewrite length_app in Hle; simpl in Hle; lia|].
    specialize (Hnext b eq_refl).
    assert (Hb : (l1 ++ a :: b :: l2) !! S (length l1) = Some b).
    { rewrite lookup_app_r by lia.
      replace (S (length l1) - length l1)%nat with 1%nat by lia. reflexivity. }
    assert (Hin : b ∈ take pos (l1 ++ a :: b :: l2)).
    { apply list_elem_of_lookup. exists (S (length l1)).
      apply lookup_take_Some. split; [exact Hb | lia]. }
    rewrite Forall_forall in Hlow. pose proof (Hlow b Hin) as Hstart. simpl in Hstart.
    rewrite <- (take_drop pos (l1 ++ a :: b :: l2)) in Hord.
    apply ordered_app_inv in Hord as (Hord1 & _ & _).
    unfold prev_overlaps in Hprev.
    destruct (last (take pos (l1 ++ a :: b :: l2))) as [z|] eqn:Hz.
    + apply Z.leb_gt in Hprev.
      pose proof (ordered_last_end _ z b Hord1 Hz Hin) as Hend.
      destruct Hl2 as [Hwf2 _]. apply Forall_cons in Hwf2 as [Hwfb _]. lia.
    + apply last_None in Hz. rewrite Hz in Hin. inversion Hin.
Qed.

(** C3, amended.  Let the list hold an entry [a] and let the inserted range
    [[a.end + 1, x]] lie within the day; let the entry after [a], if any, not
    be contiguous with the inserted range under the inserted name.  Then a
    successful call under the name of [a] leaves the single entry
    [[a.start, x]] with the meta of [a] in the place of [a], and a successful
    call under another name leaves [a] followed by the distinct entry
    [[a.end + 1, x]] with the inserted meta. *)
Theorem addRangeNoOverlap_left_neighbour
    (h : heap) (list : list loc) (l1 : Datatypes.list TimeslotRange)
    (a : TimeslotRange) (l2 : Datatypes.list TimeslotRange)
    (x : Z) (meta' : jsval) (next : Datatypes.list loc) (h' : heap) :
  timeslot_list h list (l1 ++ a :: l2) ->
  0 <= end_ a + 1 -> end_ a + 1 <= x -> x <= 86399 ->
  (forall b, head l2 = Some b ->
     joins {| start := end_ a + 1; end_ := x; meta := meta' |} b = false) ->
  addRangeNoOverlap list (end_ a + 1) x meta' h = (Ok next, h') ->
  array_is h' next
    (if strict_eq (get_prop (meta a) "name") (get_prop meta' "name")
     then l1 ++ {| start := start a; end_ := x; meta := meta a |} :: l2
     else l1 ++ a :: {| start := end_ a + 1; end_ := x; meta := meta' |} :: l2).
Proof.
  intros Hts H0 Hx H1 Hright Hrun.
  pose proof (addRangeNoOverlap_Ok_valid_meta _ _ _ _ _ _ _ Hrun) as Hmeta.
  pose proof (timeslot_list_ordered _ _ _ Hts) as Hord.
  pose proof (timeslot_list_NoDup _ _ _ Hts) as Hnd.
  destruct Hts as (Harr & _ & Hsorted & _).
  destruct (addRangeNoOverlap_run h list _ (end_ a + 1) x meta' Hmeta Harr Hnd Hsorted)
    as (pos & Hle & Hlow & Hhigh & Hres).
  assert (Hnorm : normalizeRange (end_ a + 1) x = (end_ a + 1, x)).
  { rewrite normalizeRange_clamp. unfold clamp_day. f_equal; lia. }
  rewrite Hnorm in Hlow, Hhigh, Hres. simpl fst in *. simpl snd in *.
  destruct (prev_overlaps (take pos (l1 ++ a :: l2)) (end_ a + 1)) eqn:Hprev;
    [rewrite Hres in Hrun; discriminate|].
  destruct (next_overlaps (drop pos (l1 ++ a :: l2)) x) eqn:Hnext;
    [rewrite Hres in Hrun; discriminate|].
  destruct Hres as (next0 & h0 & Hrun0 & Harr' & _).
  rewrite Hrun0 in Hrun. injection Hrun as <- <-.
  pose proof (position_after_left_neighbour l1 a l2 pos Hord Hle Hlow Hhigh Hprev)
    as ->.
  assert (Etake : take (S (length l1)) (l1 ++ a :: l2) = l1 ++ [a]).
  { change (a :: l2) with ([a] ++ l2). rewrite app_assoc.
    apply take_app_length'. rewrite length_app. simpl. lia. }
  assert (Edrop : drop (S (length l1)) (l1 ++ a :: l2) = l2).
  { change (a :: l2) with ([a] ++ l2). rewrite app_assoc.
    apply drop_app_length'. rewrite length_app. simpl. lia. }
  rewrite Etake, Edrop in Harr'.
  unfold merged, merge_left in Harr'. rewrite last_snoc, removelast_last in Harr'.
  unfold joins at 1 in Harr'. simpl in Harr'. rewrite Z.eqb_refl in Harr'.
  simpl in Harr'.
  destruct (strict_eq (get_prop (meta a) "name") (get_prop meta' "name")) eqn:Hname.
  - apply strict_eq_eq in Hname.
    unfold merge_right in Harr'. destruct l2 as [|b l2]; [exact Harr'|].
    specialize (Hright b eq_refl).
    unfold joins in Harr', Hright. simpl in Harr', Hright.
    rewrite Hname, Hright in Harr'. exact Harr'.
  - unfold merge_right in Harr'. rewrite <- app_assoc in Harr'. simpl in Harr'.
    destruct l2 as [|b l2]; [exact Harr'|].
    rewrite (Hright b eq_refl) in Harr'. exact Harr'.
Qed.

Lemma addRangeNoOverlap_left_neighbour_witness :
  array_is [slot 0 7199 "focus"; slot 3600 7199 "focus"] [0%nat]
    [slot 0 7199 "focus"]
  /\ array_is [slot 0 3599 "focus"; slot 3600 7199 "break"] [0%nat; 1%nat]
       [slot 0 3599 "focus"; slot 3600 7199 "break"].
Proof.
  split.
  - apply (addRangeNoOverlap_left_neighbour
             [slot 0 3599 "focus"] [0%nat] [] (slot 0 3599 "focus") []
             7199 (named "focus")); simpl; try lia.
    + repeat split; repeat constructor; simpl; lia.
    + discriminate.
    + vm_compute. reflexivity.
  - apply (addRangeNoOverlap_left_neighbour
             [slot 0 3599 "focus"] [0%nat] [] (slot 0 3599 "focus") []
             7199 (named "break")); simpl; try lia.
    + repeat split; repeat constructor; simpl; lia.
    + discriminate.
    + vm_compute. reflexivity.
Defined.

(** C3 as stated fails where the new range closes the gap between two
    entries of one name: the entry after [a] is absorbed as well, and the
    merged entry ends where that entry ended, not at [x]. *)
Lemma left_merge_as_stated_fails : ~ left_merge_as_stated.
Proof.
  intros Hclaim.
  specialize (Hclaim [slot 0 10 "f"; slot 21 30 "f"] [0%nat; 1%nat]
                [] (slot 0 10 "f") [slot 21 30 "f"] 20 (named "f")
                [0%nat] [slot 0 30 "f"; slot 21 30 "f"; slot 11 20 "f"]).
  assert (Hbad : array_is [slot 0 30 "f"; slot 21 30 "f"; slot 11 20 "f"] [0%nat]
                   [slot 0 20 "f"; slot 21 30 "f"]).
  { apply Hclaim; simpl; try lia; try reflexivity.
    repeat split; repeat constructor; simpl; lia. }
  apply Forall2_length in Hbad. discriminate Hbad.
Qed.

(** ** What a call writes *)

(** A successful call leaves every object of the heap as it was, except
    possibly the one in front of the insertion position. *)
Lemma addRangeNoOverlap_frame
    (h : heap) (list : list loc) (rs : Datatypes.list TimeslotRange)
    (start' end' : Z) (meta' : jsval) (next : Datatypes.list loc) (h' : heap) :
  timeslot_list h list rs ->
  addRangeNoOverlap list start' end' meta' h = (Ok next, h') ->
  exists pos,
    forall l r, h !! l = Some r -> last (take pos list) <> Some l -> h' !! l = Some r.
Proof.
  intros Hts Hrun.
  pose proof (addRangeNoOverlap_Ok_valid_meta _ _ _ _ _ _ _ Hrun) as Hmeta.
  pose proof (timeslot_list_NoDup _ _ _ Hts) as Hnd.
  destruct Hts as (Harr & _ & Hsorted & _).
  destruct (addRangeNoOverlap_run h list rs start' end' meta' Hmeta Harr Hnd Hsorted)
    as (pos & _ & _ & _ & Hres).
  exists pos.
  destruct (prev_overlaps _ _); [rewrite Hres in Hrun; discriminate|].
  destruct (next_overlaps _ _); [rewrite Hres in Hrun; discriminate|].
  destruct Hres as (next0 & h0 & Hrun0 & _ & _ & Hframe).
  rewrite Hrun0 in Hrun. injection Hrun as <- <-. exact Hframe.
Qed.

(** C4 fails on the code: the array is copied but its objects are shared, and
    the left merge writes [a.end] of the neighbour.  The caller's list
    [[0, 3599]] reads [[0, 7199]] after the call. *)
Theorem addRangeNoOverlap_writes_left_neighbour :
  let h := [slot 0 3599 "focus"] in
  let list := [0%nat] in
  exists next h',
    addRangeNoOverlap list 3600 7199 (named "focus") h = (Ok next, h')
    /\ contents h list = Some [slot 0 3599 "focus"]
    /\ contents h' list = Some [slot 0 7199 "focus"].
Proof.
  simpl. eexists _, _. split; [vm_compute; reflexivity|].
  split; reflexivity.
Qed.

(* ===================================================================== *)
(** * Ranges, clock readings and time labels *)
(* ===================================================================== *)

(** X1. A normalized range lies within the day with its start at or before
    its end; the order of the two arguments does not matter, and normalizing
    again changes nothing. *)
Theorem normalizeRange_canonical (a b : Z) :
  let s := fst (normalizeRange a b) in
  let e := snd (normalizeRange a b) in
  0 <= s /\ s <= e /\ e <= 86399
  /\ normalizeRange b a = (s, e)
  /\ normalizeRange s e = (s, e).
Proof.
  intros s e. subst s e. rewrite !normalizeRange_clamp. simpl.
  unfold clamp_day. repeat split; try lia; f_equal; lia.
Qed.

(** X2. For a clock reading with hours in [[0, 23]] and minutes and seconds
    in [[0, 59]] the seconds since midnight lie in [[0, 86399]]; the
    remaining seconds are the rest of the day, never clamped and at least
    one. *)
Theorem getRemainingSeconds_of_day (now : Clock) :
  0 <= getHours now <= 23 -> 0 <= getMinutes now <= 59 ->
  0 <= getSeconds now <= 59 ->
  0 <= getSecondsSinceMidnight now <= 86399
  /\ getSecondsSinceMidnight now + getRemainingSeconds now = 86400
  /\ 1 <= getRemainingSeconds now <= 86400.
Proof.
  intros Hh Hm Hs. unfold getRemainingSeconds, getSecondsSinceMidnight. lia.
Qed.

Lemma getRemainingSeconds_of_day_witness :
  let now := {| getHours := 23; getMinutes := 59; getSeconds := 59 |} in
  0 <= getSecondsSinceMidnight now <= 86399
  /\ getSecondsSinceMidnight now + getRemainingSeconds now = 86400
  /\ 1 <= getRemainingSeconds now <= 86400.
Proof.
  apply (getRemainingSeconds_of_day
           {| getHours := 23; getMinutes := 59; getSeconds := 59 |});
    simpl; lia.
Defined.

(** ** Two-digit fields *)

Lemma below_100_cases (P : Z -> Prop) :
  Forall P (seqZ 0 100) -> forall n, 0 <= n < 100 -> P n.
Proof.
  intros Hall n Hn. rewrite Forall_forall in Hall. apply Hall.
  apply elem_of_seqZ. lia.
Qed.

Lemma padStart_two_digits n :
  0 <= n < 100 -> padStart 2 "0" (String_of n) = two_digits n.
Proof.
  revert n. apply below_100_cases.
  apply Forall_forall. intros n Hn.
  apply elem_of_seqZ in Hn.
  assert (Hcheck : forallb (fun k => String.eqb (padStart 2 "0" (String_of k))
                                        (two_digits k)) (seqZ 0 100) = true)
    by (vm_compute; reflexivity).
  rewrite forallb_forall in Hcheck.
  apply String.eqb_eq. apply Hcheck. apply list_elem_of_In. apply elem_of_seqZ. lia.
Qed.

Lemma two_digits_digits n :
  0 <= n < 100 ->
  exists d1 d2,
    two_digits n = String d1 (String d2 EmptyString)
    /\ is_digit d1 = true /\ is_digit d2 = true
    /\ 10 * digit_value d1 + digit_value d2 = n.
Proof.
  intros Hn. unfold two_digits.
  assert (Hq : 0 <= n / 10 <= 9)
    by (split; [apply Z.div_pos; lia | apply Z.lt_succ_r, Z.div_lt_upper_bound; lia]).
  pose proof (Z.mod_pos_bound n 10 ltac:(lia)) as Hr.
  assert (Hcode : forall d, 0 <= d <= 9 ->
            N_of_ascii (ascii_of_N (Z.to_N (48 + d))) = Z.to_N (48 + d)).
  { intros d Hd. apply N_ascii_embedding. lia. }
  eexists _, _. split; [reflexivity|].
  unfold is_digit, digit_value. rewrite !Hcode by lia.
  split; [|split].
  - apply andb_true_iff. split; apply N.leb_le; lia.
  - apply andb_true_iff. split; apply N.leb_le; lia.
  - rewrite !Z2N.id by lia. pose proof (Z.div_mod n 10 ltac:(lia)). lia.
Qed.

Lemma Number_two_digits n : 0 <= n < 100 -> Number (two_digits n) = n.
Proof.
  intros Hn. destruct (two_digits_digits n Hn) as (d1 & d2 & -> & _ & _ & E).
  unfold Number. simpl. lia.
Qed.

Lemma length_two_digits n : String.length (two_digits n) = 2%nat.
Proof. reflexivity. Qed.

(** X3. For [0 <= t < 360000] (hours below 100) the label is the three
    two-digit fields of [formatHhMmSsParts] joined by colons, eight
    characters long, and the fields read back as numbers give [t]: minutes
    and seconds below 60, nothing rounded. *)
Theorem formatHhMmSs_fields (t : Z) :
  0 <= t -> t < 360000 ->
  let p := formatHhMmSsParts t in
  formatHhMmSs t = (hh p ++ ":" ++ mm p ++ ":" ++ ss p)%string
  /\ String.length (formatHhMmSs t) = 8%nat
  /\ Number (hh p) * 3600 + Number (mm p) * 60 + Number (ss p) = t
  /\ 0 <= Number (mm p) < 60 /\ 0 <= Number (ss p) < 60.
Proof.
  intros H0 H1 p.
  assert (Hh : 0 <= t / 3600 < 100)
    by (split; [apply Z.div_pos; lia | apply Z.div_lt_upper_bound; lia]).
  assert (Hrem1 : Z.rem t 3600 = t mod 3600) by (apply Z.rem_mod_nonneg; lia).
  assert (Hrem2 : Z.rem t 60 = t mod 60) by (apply Z.rem_mod_nonneg; lia).
  pose proof (Z.mod_pos_bound t 3600 ltac:(lia)) as Hm3600.
  pose proof (Z.mod_pos_bound t 60 ltac:(lia)) as Hs.
  assert (Hm : 0 <= t mod 3600 / 60 < 60)
    by (split; [apply Z.div_pos; lia | apply Z.div_lt_upper_bound; lia]).
  assert (Ehh : hh p = two_digits (t / 3600))
    by (subst p; simpl; apply padStart_two_digits; lia).
  assert (Emm : mm p = two_digits (t mod 3600 / 60))
    by (subst p; simpl; rewrite Hrem1; apply padStart_two_digits; lia).
  assert (Ess : ss p = two_digits (t mod 60))
    by (subst p; simpl; rewrite Hrem2; apply padStart_two_digits; lia).
  assert (Etext : formatHhMmSs t = (hh p ++ ":" ++ mm p ++ ":" ++ ss p)%string)
    by reflexivity.
  split; [exact Etext|].
  rewrite Etext, Ehh, Emm, Ess. rewrite !Number_two_digits by lia.
  split; [reflexivity|]. split; [|lia].
  pose proof (Z.div_mod t 3600 ltac:(lia)) as D1.
  pose proof (Z.div_mod (t mod 3600) 60 ltac:(lia)) as D2.
  assert (E60 : (t mod 3600) mod 60 = t mod 60).
  { rewrite D1 at 2.
    replace (3600 * (t / 3600) + t mod 3600)
      with (t mod 3600 + (60 * (t / 3600)) * 60) by lia.
    rewrite Z_mod_plus_full. reflexivity. }
  lia.
Qed.

Lemma formatHhMmSs_fields_witness :
  formatHhMmSs 86400 = "24:00:00"
  /\ Number (hh (formatHhMmSsParts 86400)) * 3600
     + Number (mm (formatHhMmSsParts 86400)) * 60
     + Number (ss (formatHhMmSsParts 86400)) = 86400.
Proof.
  destruct (formatHhMmSs_fields 86400) as (Htext & _ & Hback & _); [lia | lia |].
  split; [exact Htext | exact Hback].
Defined.

(** ** Time texts *)

Lemma clock_text_hhmm hours minutes :
  0 <= hours < 100 -> 0 <= minutes < 100 ->
  matches_hhmm (clock_text hours minutes)
  /\ fromTimeStringHHMM (clock_text hours minutes)
     = Z.min hours 23 * 3600 + Z.min minutes 59 * 60.
Proof.
  intros Hh Hm.
  destruct (two_digits_digits hours Hh) as (d1 & d2 & Eh & H1 & H2 & Vh).
  destruct (two_digits_digits minutes Hm) as (d3 & d4 & Em & H3 & H4 & Vm).
  assert (Etext : clock_text hours minutes = hhmm_text d1 d2 d3 d4)
    by (unfold clock_text; rewrite Eh, Em; reflexivity).
  rewrite Etext. split.
  - exists d1, d2, d3, d4. repeat split; assumption.
  - unfold fromTimeStringHHMM. rewrite exec_hhmm_match by assumption.
    unfold Number. simpl. lia.
Qed.

Lemma toTimeStringHHMM_clock_text seconds :
  toTimeStringHHMM seconds
  = clock_text (clamp_day seconds / 3600) (clamp_day seconds mod 3600 / 60).
Proof.
  unfold toTimeStringHHMM, clock_text. fold (clamp_day seconds).
  assert (Hc : 0 <= clamp_day seconds <= 86399) by (unfold clamp_day; lia).
  rewrite Z.rem_mod_nonneg by lia.
  pose proof (Z.mod_pos_bound (clamp_day seconds) 3600 ltac:(lia)) as Hm.
  rewrite !padStart_two_digits; [reflexivity | |].
  - split; [apply Z.div_pos; lia | apply Z.div_lt_upper_bound; lia].
  - split; [apply Z.div_pos; lia | apply Z.div_lt_upper_bound; lia].
Qed.

(** X4. Whatever integer it is given, [toTimeStringHHMM] writes a text of
    the shape [dd:dd], and [fromTimeStringHHMM] reads that text back as the
    seconds clamped to the day and cut down to the whole minute. *)
Theorem fromTimeStringHHMM_toTimeStringHHMM (seconds : Z) :
  matches_hhmm (toTimeStringHHMM seconds)
  /\ fromTimeStringHHMM (toTimeStringHHMM seconds)
     = clamp_day seconds - clamp_day seconds mod 60.
Proof.
  rewrite toTimeStringHHMM_clock_text.
  set (c := clamp_day seconds).
  assert (Hc : 0 <= c <= 86399) by (unfold c, clamp_day; lia).
  pose proof (Z.mod_pos_bound c 3600 ltac:(lia)) as Hm.
  assert (Hh : 0 <= c / 3600 <= 23)
    by (split; [apply Z.div_pos; lia | apply Z.lt_succ_r, Z.div_lt_upper_bound; lia]).
  assert (Hmin : 0 <= c mod 3600 / 60 <= 59)
    by (split; [apply Z.div_pos; lia | apply Z.lt_succ_r, Z.div_lt_upper_bound; lia]).
  destruct (clock_text_hhmm (c / 3600) (c mod 3600 / 60)) as [Hshape Hval]; try lia.
  split; [exact Hshape|]. rewrite Hval.
  pose proof (Z.div_mod c 3600 ltac:(lia)) as D1.
  pose proof (Z.div_mod (c mod 3600) 60 ltac:(lia)) as D2.
  assert (E60 : (c mod 3600) mod 60 = c mod 60).
  { rewrite D1 at 2.
    replace (3600 * (c / 3600) + c mod 3600)
      with (c mod 3600 + (60 * (c / 3600)) * 60) by lia.
    rewrite Z_mod_plus_full. reflexivity. }
  lia.
Qed.

(** X5. A time text [hh:mm] with [hh <= 23] and [mm <= 59] survives being
    read by [fromTimeStringHHMM] and written again by [toTimeStringHHMM];
    a text with a field out of range comes back with that field at 23 or
    59. *)
Theorem toTimeStringHHMM_fromTimeStringHHMM (hours minutes : Z) :
  0 <= hours -> hours < 100 -> 0 <= minutes -> minutes < 100 ->
  toTimeStringHHMM (fromTimeStringHHMM (clock_text hours minutes))
  = clock_text (Z.min hours 23) (Z.min minutes 59).
Proof.
  intros Hh0 Hh1 Hm0 Hm1.
  destruct (clock_text_hhmm hours minutes) as [_ Hval]; try lia.
  rewrite Hval, toTimeStringHHMM_clock_text.
  set (h := Z.min hours 23). set (m := Z.min minutes 59).
  assert (Hh : 0 <= h <= 23) by (unfold h; lia).
  assert (Hm : 0 <= m <= 59) by (unfold m; lia).
  assert (Ec : clamp_day (h * 3600 + m * 60) = h * 3600 + m * 60)
    by (unfold clamp_day; lia).
  rewrite Ec.
  assert (Eh : (h * 3600 + m * 60) / 3600 = h).
  { symmetry. apply (Z.div_unique _ _ _ (m * 60)); lia. }
  assert (Er : (h * 3600 + m * 60) mod 3600 = m * 60).
  { symmetry. apply (Z.mod_unique _ _ h); lia. }
  rewrite Eh, Er, Z.div_mul by lia. reflexivity.
Qed.

Lemma toTimeStringHHMM_fromTimeStringHHMM_witness :
  toTimeStringHHMM (fromTimeStringHHMM "09:05") = "09:05"
  /\ toTimeStringHHMM (fromTimeStringHHMM "99:99") = "23:59".
Proof.
  split.
  - apply (toTimeStringHHMM_fromTimeStringHHMM 9 5); lia.
  - apply (toTimeStringHHMM_fromTimeStringHHMM 99 99); lia.
Defined.

(** Every text is read as a whole number of minutes of the day. *)
Lemma fromTimeStringHHMM_minutes value :
  0 <= fromTimeStringHHMM value <= 86340 /\ fromTimeStringHHMM value mod 60 = 0.
Proof.
  unfold fromTimeStringHHMM.
  destruct (exec_hhmm value) as [[g1 g2]|]; [|split; [lia | reflexivity]].
  set (h := Z.max 0 (Z.min 23 (Number g1))).
  set (m := Z.max 0 (Z.min 59 (Number g2))).
  assert (Hh : 0 <= h <= 23) by (unfold h; lia).
  assert (Hm : 0 <= m <= 59) by (unfold m; lia).
  split; [lia|].
  replace (h * 3600 + m * 60) with (0 + (h * 60 + m) * 60) by lia.
  rewrite Z_mod_plus_full. reflexivity.
Qed.

(** X6. When the two pickers give a range it starts on a whole minute, ends
    one second before a later whole minute, lies within the day and is
    already normalized; it is refused exactly when the end picker does not
    read later than the start picker.  The range of a slot that starts where
    another one ends is contiguous with it. *)
Theorem pickedRange_minutes (pickerStart pickerEnd : string) :
  (pickedRange pickerStart pickerEnd = None
   <-> fromTimeStringHHMM pickerEnd <= fromTimeStringHHMM pickerStart)
  /\ (forall s e,
        pickedRange pickerStart pickerEnd = Some (s, e) ->
        0 <= s /\ s + 59 <= e /\ e <= 86339
        /\ s mod 60 = 0 /\ (e + 1) mod 60 = 0
        /\ normalizeRange s e = (s, e)
        /\ forall pickerLater s' e',
             pickedRange pickerEnd pickerLater = Some (s', e') -> e + 1 = s').
Proof.
  unfold pickedRange.
  pose proof (fromTimeStringHHMM_minutes pickerStart) as [Hs Hsm].
  pose proof (fromTimeStringHHMM_minutes pickerEnd) as [He Hem].
  destruct (Z.leb_spec (fromTimeStringHHMM pickerEnd) (fromTimeStringHHMM pickerStart))
    as [Hle|Hlt].
  - split; [split; [intros _; exact Hle | reflexivity] | discriminate].
  - split; [split; [discriminate | lia]|].
    intros s e [= <- <-].
    set (a := fromTimeStringHHMM pickerStart) in *.
    set (b := fromTimeStringHHMM pickerEnd) in *.
    assert (Hgap : a + 60 <= b).
    { pose proof (Z.div_mod a 60 ltac:(lia)). pose proof (Z.div_mod b 60 ltac:(lia)).
      lia. }
    assert (Emax : Z.max 0 (b - 1) = b - 1) by lia. rewrite Emax.
    split; [lia|]. split; [lia|]. split; [lia|]. split; [exact Hsm|].
    split; [replace (b - 1 + 1) with b by lia; exact Hem|]. split.
    + rewrite normalizeRange_clamp. unfold clamp_day. f_equal; lia.
    + intros pickerLater s' e'.
      destruct (fromTimeStringHHMM pickerLater <=? b); [discriminate|].
      intros [= <- _]. lia.
Qed.

Lemma pickedRange_minutes_witness :
  pickedRange "09:00" "10:00" = Some (32400, 35999)
  /\ normalizeRange 32400 35999 = (32400, 35999)
  /\ pickedRange "10:00" "11:30" = Some (36000, 41399).
Proof.
  destruct (pickedRange_minutes "09:00" "10:00") as [_ Hrange].
  destruct (Hrange 32400 35999 eq_refl) as (_ & _ & _ & _ & _ & Hnorm & _).
  split; [reflexivity|]. split; [exact Hnorm | reflexivity].
Defined.

(* ===================================================================== *)
(** * The active slot: [findActiveSlot] *)
(* ===================================================================== *)

(** X7. On an array of live references the scan returns, without writing,
    the first entry that holds the current second, and [null] exactly when
    no entry holds it. *)
Theorem findActiveSlot_first
    (h : heap) (arr : list loc) (rs : list TimeslotRange) (nowSeconds : Z) :
  array_is h arr rs ->
  exists res,
    findActiveSlot arr nowSeconds h = (Ok res, h)
    /\ match res with
       | Some l =>
           exists i r,
             arr !! i = Some l /\ rs !! i = Some r /\ covers r nowSeconds
             /\ forall j r', (j < i)%nat -> rs !! j = Some r' ->
                  ~ covers r' nowSeconds
       | None => forall r, r ∈ rs -> ~ covers r nowSeconds
       end.
Proof.
  intros Harr. induction Harr as [|l r arr rs Hl Harr IH].
  - exists None. split; [reflexivity|]. intros r Hin. inversion Hin.
  - simpl. unfold bind, load. rewrite Hl.
    destruct ((start r <=? nowSeconds) && (nowSeconds <=? end_ r)) eqn:Hhit.
    + exists (Some l). split; [reflexivity|].
      exists 0%nat, r. split; [reflexivity|]. split; [reflexivity|]. split.
      * apply andb_true_iff in Hhit as [H1 H2].
        apply Z.leb_le in H1. apply Z.leb_le in H2. split; assumption.
      * intros j r' Hj. lia.
    + assert (Hmiss : ~ covers r nowSeconds).
      { intros [H1 H2]. apply Z.leb_le in H1. apply Z.leb_le in H2.
        rewrite H1, H2 in Hhit. discriminate. }
      destruct IH as (res & Hrun & Hres). exists res. split; [exact Hrun|].
      destruct res as [l'|].
      * destruct Hres as (i & r0 & Hi & Hr0 & Hcov & Hfirst).
        exists (S i), r0. repeat split; try assumption; try apply Hcov.
        intros j r' Hj Hr'. destruct j as [|j].
        -- injection Hr' as <-. exact Hmiss.
        -- apply (Hfirst j r'); [lia | exact Hr'].
      * intros r' Hin. apply elem_of_cons in Hin as [->|Hin]; [exact Hmiss|].
        apply Hres. exact Hin.
Qed.

Lemma findActiveSlot_first_witness :
  exists res,
    findActiveSlot [0%nat; 1%nat] 25 [slot 0 10 "a"; slot 20 30 "b"]
    = (Ok res, [slot 0 10 "a"; slot 20 30 "b"])
    /\ match res with
       | Some l =>
           exists i r,
             [0%nat; 1%nat] !! i = Some l
             /\ [slot 0 10 "a"; slot 20 30 "b"] !! i = Some r /\ covers r 25
             /\ forall j r', (j < i)%nat ->
                  [slot 0 10 "a"; slot 20 30 "b"] !! j = Some r' -> ~ covers r' 25
       | None => forall r, r ∈ [slot 0 10 "a"; slot 20 30 "b"] -> ~ covers r 25
       end.
Proof.
  apply (findActiveSlot_first [slot 0 10 "a"; slot 20 30 "b"] [0%nat; 1%nat]).
  repeat constructor.
Defined.

Lemma ordered_covers_unique rs r r' t :
  ordered rs -> r ∈ rs -> r' ∈ rs -> covers r t -> covers r' t -> r = r'.
Proof.
  intros Hord. pose proof (ordered_strongly rs Hord) as Hss. clear Hord.
  induction Hss as [|a rs Hss IH Hall]; intros Hr Hr' [H1 H2] [H1' H2'].
  - inversion Hr.
  - rewrite Forall_forall in Hall.
    apply elem_of_cons in Hr as [->|Hr]; apply elem_of_cons in Hr' as [->|Hr'].
    + reflexivity.
    + specialize (Hall r' Hr'). simpl in Hall. lia.
    + specialize (Hall r Hr). simpl in Hall. lia.
    + apply IH; try assumption; split; assumption.
Qed.

(** X8. In a well-formed, sorted, non-overlapping list a second is held by
    at most one entry, so the scan finds every entry that holds the current
    second: that entry is the active slot. *)
Theorem findActiveSlot_finds
    (h : heap) (arr : list loc) (rs : list TimeslotRange)
    (r : TimeslotRange) (nowSeconds : Z) :
  timeslot_list h arr rs -> r ∈ rs -> covers r nowSeconds ->
  exists l, findActiveSlot arr nowSeconds h = (Ok (Some l), h) /\ h !! l = Some r.
Proof.
  intros Hts Hin Hcov.
  pose proof (timeslot_list_ordered _ _ _ Hts) as Hord.
  destruct Hts as (Harr & _).
  induction Harr as [|l0 r0 arr rs Hl0 Harr IH]; [inversion Hin|].
  simpl. unfold bind, load. rewrite Hl0.
  destruct ((start r0 <=? nowSeconds) && (nowSeconds <=? end_ r0)) eqn:Hhit.
  - exists l0. split; [reflexivity|].
    apply andb_true_iff in Hhit as [H1 H2].
    apply Z.leb_le in H1. apply Z.leb_le in H2.
    rewrite (ordered_covers_unique _ r r0 nowSeconds Hord Hin ltac:(left) Hcov
               (conj H1 H2)).
    exact Hl0.
  - apply elem_of_cons in Hin as [->|Hin].
    + destruct Hcov as [H1 H2]. apply Z.leb_le in H1. apply Z.leb_le in H2.
      rewrite H1, H2 in Hhit. discriminate.
    + apply ordered_cons_inv in Hord as (_ & Hord & _).
      exact (IH Hin Hord).
Qed.

Lemma findActiveSlot_finds_witness :
  exists l,
    findActiveSlot [0%nat; 1%nat] 25 [slot 0 10 "a"; slot 20 30 "b"]
    = (Ok (Some l), [slot 0 10 "a"; slot 20 30 "b"])
    /\ [slot 0 10 "a"; slot 20 30 "b"] !! l = Some (slot 20 30 "b").
Proof.
  apply (findActiveSlot_finds [slot 0 10 "a"; slot 20 30 "b"] [0%nat; 1%nat]
           [slot 0 10 "a"; slot 20 30 "b"] (slot 20 30 "b") 25).
  - repeat split; repeat constructor; simpl; lia.
  - right. left.
  - split; simpl; lia.
Defined.

(* ===================================================================== *)
(** * What [addRangeNoOverlap] writes and raises *)
(* ===================================================================== *)

Lemma keeps_objects_refl h : keeps_objects h h.
Proof. intros l r Hl. exists r. auto. Qed.

Lemma keeps_objects_trans h1 h2 h3 :
  keeps_objects h1 h2 -> keeps_objects h2 h3 -> keeps_objects h1 h3.
Proof.
  intros H12 H23 l r Hl.
  destruct (H12 l r Hl) as (r2 & Hl2 & Hs2 & Hm2).
  destruct (H23 l r2 Hl2) as (r3 & Hl3 & Hs3 & Hm3).
  exists r3. repeat split; congruence.
Qed.

Lemma preserving_ret {A} (a : A) : preserving (ret a).
Proof. intros h res h' [= _ <-]. apply keeps_objects_refl. Qed.

Lemma preserving_throw {A} (e : exn) : preserving (@throw A e).
Proof. intros h res h' [= _ <-]. apply keeps_objects_refl. Qed.

Lemma preserving_bind {A B} (c : M A) (k : A -> M B) :
  preserving c -> (forall a, preserving (k a)) -> preserving (bind c k).
Proof.
  intros Hc Hk h res h' Hrun. unfold bind in Hrun.
  destruct (c h) as [[a|e] h1] eqn:Ec.
  - eapply keeps_objects_trans; [eapply Hc; exact Ec | eapply Hk; exact Hrun].
  - injection Hrun as _ <-. eapply Hc. exact Ec.
Qed.

Lemma preserving_load l : preserving (load l).
Proof.
  intros h res h' Hrun. unfold load in Hrun.
  destruct (h !! l); injection Hrun as _ <-; apply keeps_objects_refl.
Qed.

Lemma preserving_elem (arr : list loc) i : preserving (elem arr i).
Proof.
  intros h res h' Hrun. unfold elem in Hrun.
  destruct (arr !! i); injection Hrun as _ <-; apply keeps_objects_refl.
Qed.

Lemma preserving_alloc r : preserving (alloc r).
Proof.
  intros h res h' [= _ <-] l r0 Hl. exists r0.
  split; [apply lookup_app_l_Some; exact Hl | auto].
Qed.

Lemma preserving_store_end l v : preserving (store_end l v).
Proof.
  intros h res h' Hrun. unfold store_end in Hrun.
  destruct (h !! l) as [r|] eqn:Hl; injection Hrun as _ <-;
    [|apply keeps_objects_refl].
  intros l0 r0 Hl0. destruct (decide (l0 = l)) as [->|Hne].
  - rewrite Hl in Hl0. injection Hl0 as <-.
    eexists. split; [apply list_lookup_insert_eq; eapply lookup_lt_Some; exact Hl|].
    split; reflexivity.
  - exists r0. rewrite list_lookup_insert_ne by congruence. auto.
Qed.

Lemma preserving_entry (arr : list loc) i : preserving (entry arr i).
Proof.
  apply preserving_bind; [apply preserving_elem | intros l; apply preserving_load].
Qed.

Lemma preserving_search (list : list loc) s : preserving (search list s).
Proof.
  intros h res h' Hrun. unfold search in Hrun.
  destruct (findInsertPos _ _ _ _); injection Hrun as _ <-; apply keeps_objects_refl.
Qed.

Lemma preserving_if {A} (b : bool) (c1 c2 : M A) :
  preserving c1 -> preserving c2 -> preserving (if b then c1 else c2).
Proof. destruct b; auto. Qed.

Lemma preserving_mergeNeighbours (next : list loc) i :
  preserving (mergeNeighbours next i).
Proof.
  unfold mergeNeighbours.
  apply preserving_bind; [apply preserving_elem | intros a].
  apply preserving_bind; [apply preserving_elem | intros b].
  apply preserving_bind; [apply preserving_load | intros ra].
  apply preserving_bind; [apply preserving_load | intros rb].
  apply preserving_if; [|apply preserving_ret].
  apply preserving_bind; [apply preserving_store_end | intros _; apply preserving_ret].
Qed.

(** X9. Whatever array and heap it is handed, and whether it returns or
    raises, a call deletes no object and changes neither the start nor the
    meta of an object: [end] is the only field it ever writes. *)
Theorem addRangeNoOverlap_keeps_objects
    (list : list loc) (start' end' : Z) (meta' : jsval)
    (h : heap) (res : outcome (Datatypes.list loc)) (h' : heap) :
  addRangeNoOverlap list start' end' meta' h = (res, h') ->
  keeps_objects h h'.
Proof.
  revert h res h'. change (preserving (addRangeNoOverlap list start' end' meta')).
  unfold addRangeNoOverlap.
  apply preserving_if; [apply preserving_throw|].
  destruct (normalizeRange start' end') as [s e].
  apply preserving_bind; [apply preserving_search | intros pos].
  apply preserving_bind.
  { unfold checkPrevious. apply preserving_if; [|apply preserving_ret].
    apply preserving_bind; [apply preserving_entry | intros a].
    apply preserving_if; [apply preserving_throw | apply preserving_ret]. }
  intros _. apply preserving_bind.
  { unfold checkNext. apply preserving_if; [|apply preserving_ret].
    apply preserving_bind; [apply preserving_entry | intros b].
    apply preserving_if; [apply preserving_throw | apply preserving_ret]. }
  intros _. apply preserving_bind; [apply preserving_alloc | intros fresh].
  apply preserving_bind.
  { unfold mergeLeft. apply preserving_if; [|apply preserving_ret].
    apply preserving_bind; [apply preserving_mergeNeighbours | intros merged].
    apply preserving_ret. }
  intros left. unfold mergeRight. apply preserving_if; [|apply preserving_ret].
  apply preserving_bind; [apply preserving_mergeNeighbours | intros merged].
  apply preserving_ret.
Qed.

Lemma addRangeNoOverlap_keeps_objects_witness :
  keeps_objects [slot 0 3599 "focus"]
    [slot 0 7199 "focus"; slot 3600 7199 "focus"].
Proof.
  apply (addRangeNoOverlap_keeps_objects [0%nat] 3600 7199 (named "focus")
           [slot 0 3599 "focus"] (Ok [0%nat])).
  vm_compute. reflexivity.
Defined.

(** X10. On an array of distinct live references whose entries are sorted by
    start a call ends in one of four ways: it returns, or it raises the meta
    [TypeError], or one of the two overlap errors, each of the three with the
    heap untouched.  It never reads a missing entry.  The meta [TypeError] is
    raised exactly for a meta that is not an object with a string name. *)
Theorem addRangeNoOverlap_outcomes
    (h : heap) (list : list loc) (rs : Datatypes.list TimeslotRange)
    (start' end' : Z) (meta' : jsval) :
  array_is h list rs -> NoDup list -> sorted_by_start rs ->
  let run := addRangeNoOverlap list start' end' meta' h in
  let meta_error :=
    TypeError "meta must be an object with meta.name (string)" in
  ((exists next h', run = (Ok next, h'))
   \/ run = (Throw meta_error, h)
   \/ run = (Throw (Error "overlap with previous range"), h)
   \/ run = (Throw (Error "overlap with next range"), h))
  /\ (run = (Throw meta_error, h) <-> ~ valid_meta meta').
Proof.
  intros Harr Hnd Hsorted run meta_error.
  destruct (negb (truthy meta') || negb (is_string (get_prop meta' "name")))
    eqn:Hguard.
  - assert (Hrun : run = (Throw meta_error, h)).
    { subst run. unfold addRangeNoOverlap. rewrite Hguard. reflexivity. }
    split; [right; left; exact Hrun|].
    split; [|intros _; exact Hrun].
    intros _ Hmeta. rewrite (valid_meta_guard _ Hmeta) in Hguard. discriminate.
  - pose proof (guard_valid_meta _ Hguard) as Hmeta.
    destruct (addRangeNoOverlap_run h list rs start' end' meta' Hmeta Harr Hnd Hsorted)
      as (pos & _ & _ & _ & Hres).
    fold run in Hres.
    assert (Hnot : run <> (Throw meta_error, h)).
    { destruct (prev_overlaps _ _); [rewrite Hres; discriminate|].
      destruct (next_overlaps _ _); [rewrite Hres; discriminate|].
      destruct Hres as (next & h' & -> & _). discriminate. }
    split; [|split; [intros Hrun; contradiction | intros Hno; contradiction]].
    destruct (prev_overlaps _ _); [right; right; left; exact Hres|].
    destruct (next_overlaps _ _); [right; right; right; exact Hres|].
    destruct Hres as (next & h' & Hrun & _). left. eauto.
Qed.

Lemma addRangeNoOverlap_outcomes_witness :
  let run := addRangeNoOverlap [0%nat] 3600 7199 JNull [slot 0 3599 "focus"] in
  let meta_error :=
    TypeError "meta must be an object with meta.name (string)" in
  ((exists next h', run = (Ok next, h'))
   \/ run = (Throw meta_error, [slot 0 3599 "focus"])
   \/ run = (Throw (Error "overlap with previous range"), [slot 0 3599 "focus"])
   \/ run = (Throw (Error "overlap with next range"), [slot 0 3599 "focus"]))
  /\ (run = (Throw meta_error, [slot 0 3599 "focus"]) <-> ~ valid_meta JNull).
Proof.
  apply (addRangeNoOverlap_outcomes [slot 0 3599 "focus"] [0%nat]
           [slot 0 3599 "focus"] 3600 7199 JNull).
  - repeat constructor.
  - repeat constructor. apply not_elem_of_nil.
  - repeat constructor.
Defined.

(** ** The insertion position *)

Lemma starts_upto_split s (before after : list TimeslotRange) :
  Forall (fun r => start r <= s) before ->
  Forall (fun r => s < start r) after ->
  starts_upto s (before ++ after) = length before.
Proof.
  unfold starts_upto. intros Hlow Hhigh. rewrite List.filter_app, length_app.
  assert (E1 : List.filter (fun r => start r <=? s) before = before).
  { induction Hlow as [|r l Hr _ IH]; [reflexivity|]. simpl.
    apply Z.leb_le in Hr. rewrite Hr, IH. reflexivity. }
  assert (E2 : List.filter (fun r => start r <=? s) after = []).
  { induction Hhigh as [|r l Hr _ IH]; [reflexivity|]. simpl.
    apply Z.leb_gt in Hr. rewrite Hr. exact IH. }
  rewrite E1, E2. simpl. lia.
Qed.

(** X11. On an array whose entries are sorted by start the halving loop
    finds, without writing, the number of entries that start at or before
    [s]: every entry in front of the position starts at or before [s] and
    every entry from the position on starts after it. *)
Theorem search_position
    (h : heap) (list : list loc) (rs : Datatypes.list TimeslotRange) (s : Z) :
  array_is h list rs -> sorted_by_start rs ->
  search list s h = (Ok (starts_upto s rs), h)
  /\ Forall (fun r => start r <= s) (take (starts_upto s rs) rs)
  /\ Forall (fun r => s < start r) (drop (starts_upto s rs) rs).
Proof.
  intros Harr Hsorted.
  destruct (search_run h list rs s Harr Hsorted) as (pos & Hrun & Hle & Hlow & Hhigh).
  assert (Epos : starts_upto s rs = pos).
  { rewrite <- (take_drop pos rs) at 1.
    rewrite (starts_upto_split s _ _ Hlow Hhigh). apply length_take_le. exact Hle. }
  rewrite Epos. repeat split; assumption.
Qed.

Lemma search_position_witness :
  search [0%nat; 1%nat; 2%nat] 25
    [slot 0 10 "a"; slot 20 30 "b"; slot 40 50 "c"]
  = (Ok 2%nat, [slot 0 10 "a"; slot 20 30 "b"; slot 40 50 "c"]).
Proof.
  apply (search_position [slot 0 10 "a"; slot 20 30 "b"; slot 40 50 "c"]
           [0%nat; 1%nat; 2%nat] [slot 0 10 "a"; slot 20 30 "b"; slot 40 50 "c"] 25).
  - repeat constructor.
  - repeat constructor; simpl; lia.
Defined.

(* ===================================================================== *)
(** * What a successful insertion leaves *)
(* ===================================================================== *)

Lemma merge_left_cases before new :
  (merge_left before new = (before, new)
   /\ forall a, last before = Some a -> joins a new = false)
  \/ exists before' a,
       before = before' ++ [a] /\ joins a new = true
       /\ merge_left before new = (before', extend a new).
Proof.
  unfold merge_left.
  destruct before as [|a before _] using rev_ind.
  - left. split; [reflexivity | discriminate].
  - rewrite last_snoc, removelast_last.
    destruct (joins a new) eqn:E.
    + right. exists before, a. auto.
    + left. split; [reflexivity|]. intros a0 [= <-]. exact E.
Qed.

Lemma merge_right_cases cur after :
  (merge_right cur after = cur :: after
   /\ forall b, head after = Some b -> joins cur b = false)
  \/ exists b rest,
       after = b :: rest /\ joins cur b = true
       /\ merge_right cur after = extend cur b :: rest.
Proof.
  unfold merge_right. destruct after as [|b rest].
  - left. split; [reflexivity | discriminate].
  - destruct (joins cur b) eqn:E.
    + right. exists b, rest. auto.
    + left. split; [reflexivity|]. intros b0 [= <-]. exact E.
Qed.

Lemma joins_inv a b :
  joins a b = true ->
  end_ a + 1 = start b
  /\ get_prop (meta a) "name" = get_prop (meta b) "name".
Proof.
  unfold joins. intros E. apply andb_true_iff in E as [E1 E2].
  apply Z.eqb_eq in E1. apply strict_eq_eq in E2. auto.
Qed.

Lemma joins_extend_r a b c :
  joins a b = true -> joins (extend a b) c = joins b c.
Proof.
  intros E. apply joins_inv in E as [_ Hname].
  unfold joins, extend. simpl. rewrite Hname. reflexivity.
Qed.

(** A successful call on a list of timeslots, taken apart at the insertion
    position. *)
Lemma addRangeNoOverlap_Ok_inv
    (h : heap) (list : list loc) (rs : Datatypes.list TimeslotRange)
    (start' end' : Z) (meta' : jsval) (next : Datatypes.list loc) (h' : heap) :
  timeslot_list h list rs ->
  addRangeNoOverlap list start' end' meta' h = (Ok next, h') ->
  let s := fst (normalizeRange start' end') in
  let e := snd (normalizeRange start' end') in
  let new := {| start := s; end_ := e; meta := meta' |} in
  exists before after,
    rs = before ++ after
    /\ prev_overlaps before s = false /\ next_overlaps after e = false
    /\ timeslot_list h' next (merged before new after).
Proof.
  intros Hts Hrun s e new.
  pose proof (addRangeNoOverlap_Ok_valid_meta _ _ _ _ _ _ _ Hrun) as Hmeta.
  pose proof (timeslot_list_NoDup _ _ _ Hts) as Hnd.
  destruct Hts as (Harr & Hwf & Hsorted & Hno).
  destruct (addRangeNoOverlap_run h list rs start' end' meta' Hmeta Harr Hnd Hsorted)
    as (pos & Hle & Hlow & Hhigh & Hres).
  fold s e in Hlow, Hhigh, Hres. fold new in Hres.
  destruct (prev_overlaps (take pos rs) s) eqn:Hprev;
    [rewrite Hres in Hrun; discriminate|].
  destruct (next_overlaps (drop pos rs) e) eqn:Hnext;
    [rewrite Hres in Hrun; discriminate|].
  destruct Hres as (next0 & h0 & Hrun0 & Harr' & Hnd' & _).
  rewrite Hrun0 in Hrun. injection Hrun as <- <-.
  exists (take pos rs), (drop pos rs).
  split; [symmetry; apply take_drop|]. split; [exact Hprev|]. split; [exact Hnext|].
  rewrite <- (take_drop pos rs) in Hsorted, Hno, Hwf.
  split; [exact Harr'|]. split; [|split].
  - apply merged_well_formed; try assumption. apply normalizeRange_ordered.
  - apply merged_sorted; assumption.
  - apply merged_non_overlapping; assumption.
Qed.

Lemma labelled_Exists rs t n :
  labelled rs t n
  <-> Exists (fun r => covers r t /\ get_prop (meta r) "name" = n) rs.
Proof.
  unfold labelled. rewrite Exists_exists. split.
  - intros (r & Hin & Hc & Hn). exists r. auto.
  - intros (r & Hin & Hc & Hn). exists r. auto.
Qed.

Lemma covers_extend a b t n :
  joins a b = true -> start a <= end_ a -> start b <= end_ b ->
  (covers (extend a b) t /\ get_prop (meta (extend a b)) "name" = n)
  <-> (covers a t /\ get_prop (meta a) "name" = n)
      \/ (covers b t /\ get_prop (meta b) "name" = n).
Proof.
  intros E Ha Hb. apply joins_inv in E as [Hend Hname].
  unfold covers, extend. simpl. rewrite <- Hname.
  split.
  - intros [[H1 H2] Hn]. destruct (Z_le_gt_dec t (end_ a)); [left | right];
      (split; [lia | exact Hn]).
  - intros [[[H1 H2] Hn]|[[H1 H2] Hn]]; (split; [lia | exact Hn]).
Qed.

(** The seconds held by the entries and their names, after the merges. *)
Lemma merged_labelled before new after t n :
  well_formed before -> well_formed after -> start new <= end_ new ->
  prev_overlaps before (start new) = false ->
  labelled (merged before new after) t n
  <-> labelled before t n
      \/ (covers new t /\ get_prop (meta new) "name" = n)
      \/ labelled after t n.
Proof.
  intros Hwb Hwa Hnew Hprev. rewrite !labelled_Exists.
  set (P := fun r => covers r t /\ get_prop (meta r) "name" = n).
  change (covers new t /\ get_prop (meta new) "name" = n) with (P new).
  unfold merged.
  assert (Hleft : (Exists P (merge_left before new).1 \/ P (merge_left before new).2
                   <-> Exists P before \/ P new)
                  /\ start (merge_left before new).2 <= end_ (merge_left before new).2).
  { destruct (merge_left_cases before new) as [[-> _]|(before' & a & -> & E & ->)];
      simpl; [split; [tauto | exact Hnew]|].
    apply Forall_app in Hwb as [_ Hwa']. apply Forall_inv in Hwa'.
    pose proof (joins_inv _ _ E) as [Hend _].
    split; [|lia].
    rewrite Exists_app, Exists_cons, Exists_nil.
    pose proof (covers_extend a new t n E Hwa' Hnew) as Hext. fold (P (extend a new)) in Hext.
    fold (P a) in Hext. fold (P new) in Hext. tauto. }
  destruct (merge_left before new) as [before' cur]. simpl in Hleft.
  destruct Hleft as [Hleft Hcur].
  assert (Hright : Exists P (merge_right cur after) <-> P cur \/ Exists P after).
  { destruct (merge_right_cases cur after) as [[-> _]|(b & rest & -> & E & ->)].
    - apply Exists_cons.
    - apply Forall_inv in Hwa.
      rewrite !Exists_cons.
      pose proof (covers_extend cur b t n E Hcur Hwa) as Hext.
      fold (P (extend cur b)) in Hext. fold (P cur) in Hext. fold (P b) in Hext.
      tauto. }
  rewrite Exists_app, Hright. tauto.
Qed.

(** X12. A successful insertion into a list of timeslots changes no second's
    label: a second is held by an entry of a name afterwards exactly when it
    was so before, or lies in the inserted range and the name is the
    inserted one.  The merges move boundaries between entries, never what a
    second is labelled with. *)
Theorem addRangeNoOverlap_labels
    (h : heap) (list : list loc) (rs : Datatypes.list TimeslotRange)
    (start' end' : Z) (meta' : jsval) (next : Datatypes.list loc) (h' : heap) :
  timeslot_list h list rs ->
  addRangeNoOverlap list start' end' meta' h = (Ok next, h') ->
  let s := fst (normalizeRange start' end') in
  let e := snd (normalizeRange start' end') in
  exists rs',
    timeslot_list h' next rs'
    /\ forall t n,
         labelled rs' t n
         <-> labelled rs t n
             \/ (s <= t <= e /\ n = get_prop meta' "name").
Proof.
  intros Hts Hrun s e.
  destruct (addRangeNoOverlap_Ok_inv _ _ _ _ _ _ _ _ Hts Hrun)
    as (before & after & -> & Hprev & Hnext & Hts').
  fold s e in Hprev, Hnext, Hts'.
  eexists. split; [exact Hts'|]. intros t n.
  destruct Hts as (_ & Hwf & _). apply Forall_app in Hwf as [Hwb Hwa].
  rewrite merged_labelled;
    [| exact Hwb | exact Hwa | apply normalizeRange_ordered | exact Hprev].
  rewrite (labelled_Exists (before ++ after)), Exists_app, <- !labelled_Exists.
  unfold covers. simpl. split.
  - intros [Hb|[[Hc Hn]|Ha]]; [left; left; exact Hb | right | left; right; exact Ha].
    split; [exact Hc | symmetry; exact Hn].
  - intros [[Hb|Ha]|[Hc Hn]]; [left; exact Hb | right; right; exact Ha |].
    right. left. split; [exact Hc | symmetry; exact Hn].
Qed.

Lemma addRangeNoOverlap_labels_witness :
  exists rs',
    timeslot_list [slot 0 7199 "focus"; slot 3600 7199 "focus"] [0%nat] rs'
    /\ forall t n,
         labelled rs' t n
         <-> labelled [slot 0 3599 "focus"] t n
             \/ (3600 <= t <= 7199 /\ n = get_prop (named "focus") "name").
Proof.
  apply (addRangeNoOverlap_labels [slot 0 3599 "focus"] [0%nat]
           [slot 0 3599 "focus"] 3600 7199 (named "focus")).
  - repeat split; repeat constructor; simpl; lia.
  - vm_compute. reflexivity.
Defined.

(** ** One merge on each side is enough *)

Lemma merged_fully_merged before new after :
  fully_merged before -> fully_merged after ->
  fully_merged (merged before new after).
Proof.
  unfold fully_merged. intros Hb Ha.
  assert (Hleft : Sorted (fun a b => joins a b = false) (merge_left before new).1
                  /\ forall z, last (merge_left before new).1 = Some z ->
                       joins z (merge_left before new).2 = false).
  { destruct (merge_left_cases before new) as [[-> Hlast]|(before' & a & -> & E & ->)];
      simpl; [split; assumption|].
    apply Sorted_app_inv in Hb as (Hb' & _ & Hjoin).
    split; [exact Hb'|]. intros z Hz. exact (Hjoin z a Hz eq_refl). }
  unfold merged. destruct (merge_left before new) as [before' cur]. simpl in Hleft.
  destruct Hleft as [Hb' Hlast].
  destruct (merge_right_cases cur after) as [[-> Hhead]|(b & rest & -> & E & ->)].
  - apply Sorted_app_intro; [exact Hb' | |].
    + constructor; [exact Ha|]. destruct after as [|b rest]; constructor.
      apply Hhead. reflexivity.
    + intros z c Hz [= <-]. apply Hlast. exact Hz.
  - apply Sorted_inv in Ha as [Hrest Hhd].
    apply Sorted_app_intro; [exact Hb' | |].
    + constructor; [exact Hrest|]. destruct rest as [|c rest]; constructor.
      rewrite (joins_extend_r _ _ _ E). inversion Hhd; subst. assumption.
    + intros z c Hz [= <-]. exact (Hlast z Hz).
Qed.

(** X13. One merge with each neighbour is enough: when no two neighbours of
    the list are contiguous under the same name, no two neighbours of the
    list a successful insertion returns are. *)
Theorem addRangeNoOverlap_fully_merged
    (h : heap) (list : list loc) (rs : Datatypes.list TimeslotRange)
    (start' end' : Z) (meta' : jsval) (next : Datatypes.list loc) (h' : heap) :
  array_is h list rs -> NoDup list -> sorted_by_start rs ->
  fully_merged rs ->
  addRangeNoOverlap list start' end' meta' h = (Ok next, h') ->
  exists rs', array_is h' next rs' /\ fully_merged rs'.
Proof.
  intros Harr Hnd Hsorted Hfm Hrun.
  pose proof (addRangeNoOverlap_Ok_valid_meta _ _ _ _ _ _ _ Hrun) as Hmeta.
  destruct (addRangeNoOverlap_run h list rs start' end' meta' Hmeta Harr Hnd Hsorted)
    as (pos & _ & _ & _ & Hres).
  destruct (prev_overlaps _ _); [rewrite Hres in Hrun; discriminate|].
  destruct (next_overlaps _ _); [rewrite Hres in Hrun; discriminate|].
  destruct Hres as (next0 & h0 & Hrun0 & Harr' & _).
  rewrite Hrun0 in Hrun. injection Hrun as <- <-.
  eexists. split; [exact Harr'|].
  rewrite <- (take_drop pos rs) in Hfm.
  apply Sorted_app_inv in Hfm as (Hb & Ha & _).
  apply merged_fully_merged; assumption.
Qed.

Lemma addRangeNoOverlap_fully_merged_witness :
  exists rs',
    array_is [slot 0 7199 "focus"; slot 3600 7199 "focus"] [0%nat] rs'
    /\ fully_merged rs'.
Proof.
  apply (addRangeNoOverlap_fully_merged [slot 0 3599 "focus"] [0%nat]
           [slot 0 3599 "focus"] 3600 7199 (named "focus")).
  - repeat constructor.
  - repeat constructor. apply not_elem_of_nil.
  - repeat constructor.
  - repeat constructor.
  - vm_compute. reflexivity.
Defined.

(** ** Inserting into the result *)

Lemma overlap_detected before after s e r :
  ordered (before ++ after) -> r ∈ before ++ after -> intersects s e r ->
  prev_overlaps before s = true \/ next_overlaps after e = true.
Proof.
  intros Hord Hin [Hs He].
  apply ordered_app_inv in Hord as (Hord1 & Hord2 & _).
  apply elem_of_app in Hin as [Hin|Hin].
  - left. unfold prev_overlaps.
    destruct (last before) as [z|] eqn:Hz.
    + pose proof (ordered_last_end _ z r Hord1 Hz Hin). apply Z.leb_le. lia.
    + apply last_None in Hz. subst. inversion Hin.
  - right. unfold next_overlaps.
    destruct (head after) as [b|] eqn:Hb.
    + pose proof (sorted_head_start _ b r (ordered_sorted _ Hord2) Hb Hin).
      apply Z.leb_le. lia.
    + destruct after; [inversion Hin | discriminate].
Qed.

(** X14. Once a range is inserted its seconds are taken: a later call, with
    any valid meta, whose normalized range shares a second with the inserted
    one raises an overlap error and leaves the heap as it is.  So the same
    call made twice fails the second time. *)
Theorem addRangeNoOverlap_then_overlap
    (h : heap) (list : list loc) (rs : Datatypes.list TimeslotRange)
    (start' end' : Z) (meta' : jsval) (next : Datatypes.list loc) (h' : heap)
    (start2 end2 : Z) (meta2 : jsval) :
  timeslot_list h list rs ->
  addRangeNoOverlap list start' end' meta' h = (Ok next, h') ->
  valid_meta meta2 ->
  fst (normalizeRange start2 end2) <= snd (normalizeRange start' end') ->
  fst (normalizeRange start' end') <= snd (normalizeRange start2 end2) ->
  exists err,
    addRangeNoOverlap next start2 end2 meta2 h' = (Throw err, h')
    /\ overlap_error err.
Proof.
  intros Hts Hrun Hmeta2 H1 H2.
  destruct (addRangeNoOverlap_Ok_inv _ _ _ _ _ _ _ _ Hts Hrun)
    as (before & after & -> & Hprev & Hnext & Hts').
  pose proof (normalizeRange_ordered start' end') as Hse.
  pose proof (normalizeRange_ordered start2 end2) as Hse2.
  set (s := fst (normalizeRange start' end')) in *.
  set (e := snd (normalizeRange start' end')) in *.
  set (s2 := fst (normalizeRange start2 end2)) in *.
  set (e2 := snd (normalizeRange start2 end2)) in *.
  set (new := {| start := s; end_ := e; meta := meta' |}) in *.
  set (rs' := merged before new after) in *.
  (* an entry of the result holds a second of both ranges *)
  assert (Hhit : exists r, r ∈ rs' /\ intersects s2 e2 r).
  { destruct Hts as (_ & Hwf & _). apply Forall_app in Hwf as [Hwb Hwa].
    assert (Hlab : labelled rs' (Z.max s s2) (get_prop meta' "name")).
    { apply merged_labelled; [exact Hwb | exact Hwa | exact Hse | exact Hprev |].
      right. left. split; [|reflexivity]. unfold covers. simpl. lia. }
    destruct Hlab as (r & Hin & [Hc1 Hc2] & _).
    exists r. split; [exact Hin|]. unfold intersects. lia. }
  destruct Hhit as (r & Hin & Hint).
  pose proof (timeslot_list_ordered _ _ _ Hts') as Hord'.
  pose proof (timeslot_list_NoDup _ _ _ Hts') as Hnd'.
  destruct Hts' as (Harr' & _ & Hsorted' & _).
  destruct (addRangeNoOverlap_run h' next rs' start2 end2 meta2 Hmeta2 Harr' Hnd' Hsorted')
    as (pos & _ & _ & _ & Hres).
  fold s2 e2 in Hres.
  rewrite <- (take_drop pos rs') in Hord', Hin.
  destruct (overlap_detected _ _ s2 e2 r Hord' Hin Hint) as [E|E].
  - rewrite E in Hres. eexists. split; [exact Hres | left; reflexivity].
  - destruct (prev_overlaps (take pos rs') s2).
    + eexists. split; [exact Hres | left; reflexivity].
    + rewrite E in Hres. eexists. split; [exact Hres | right; reflexivity].
Qed.

Lemma addRangeNoOverlap_then_overlap_witness :
  exists err,
    addRangeNoOverlap [0%nat] 3600 7199 (named "focus")
      [slot 0 7199 "focus"; slot 3600 7199 "focus"]
    = (Throw err, [slot 0 7199 "focus"; slot 3600 7199 "focus"])
    /\ overlap_error err.
Proof.
  apply (addRangeNoOverlap_then_overlap [slot 0 3599 "focus"] [0%nat]
           [slot 0 3599 "focus"] 3600 7199 (named "focus") [0%nat]
           [slot 0 7199 "focus"; slot 3600 7199 "focus"]
           3600 7199 (named "focus")).
  - repeat split; repeat constructor; simpl; lia.
  - vm_compute. reflexivity.
  - exists [("name", JStr "focus")], "focus". split; reflexivity.
  - vm_compute. discriminate.
  - vm_compute. discriminate.
Defined.

Lemma findActiveSlot_scan
    (h : heap) (arr : list loc) (rs : list TimeslotRange) (nowSeconds : Z) :
  array_is h arr rs ->
  (exists r, r ∈ rs /\ covers r nowSeconds) ->
  exists l r,
    findActiveSlot arr nowSeconds h = (Ok (Some l), h)
    /\ h !! l = Some r /\ r ∈ rs /\ covers r nowSeconds.
Proof.
  intros Harr. induction Harr as [|l0 r0 arr rs Hl0 Harr IH];
    intros (r & Hin & Hcov); [inversion Hin|].
  simpl. unfold bind, load. rewrite Hl0.
  destruct ((start r0 <=? nowSeconds) && (nowSeconds <=? end_ r0)) eqn:Hhit.
  - exists l0, r0. split; [reflexivity|]. split; [exact Hl0|]. split; [left|].
    apply andb_true_iff in Hhit as [H1 H2].
    apply Z.leb_le in H1. apply Z.leb_le in H2. split; assumption.
  - apply elem_of_cons in Hin as [->|Hin].
    + destruct Hcov as [H1 H2]. apply Z.leb_le in H1. apply Z.leb_le in H2.
      rewrite H1, H2 in Hhit. discriminate.
    + destruct IH as (l & r' & Hrun & Hl & Hin' & Hcov'); [eauto|].
      exists l, r'. split; [exact Hrun|]. split; [exact Hl|].
      split; [right; exact Hin' | exact Hcov'].
Qed.

(** X15. After a successful insertion into a list of timeslots the active
    slot at every second of the inserted range is an entry that holds that
    second under the inserted name. *)
Theorem findActiveSlot_after_addRangeNoOverlap
    (h : heap) (list : list loc) (rs : Datatypes.list TimeslotRange)
    (start' end' : Z) (meta' : jsval) (next : Datatypes.list loc) (h' : heap)
    (nowSeconds : Z) :
  timeslot_list h list rs ->
  addRangeNoOverlap list start' end' meta' h = (Ok next, h') ->
  fst (normalizeRange start' end') <= nowSeconds ->
  nowSeconds <= snd (normalizeRange start' end') ->
  exists l r,
    findActiveSlot next nowSeconds h' = (Ok (Some l), h')
    /\ h' !! l = Some r /\ covers r nowSeconds
    /\ get_prop (meta r) "name" = get_prop meta' "name".
Proof.
  intros Hts Hrun H1 H2.
  destruct (addRangeNoOverlap_Ok_inv _ _ _ _ _ _ _ _ Hts Hrun)
    as (before & after & -> & Hprev & Hnext & Hts').
  destruct Hts as (_ & Hwf & _). apply Forall_app in Hwf as [Hwb Hwa].
  match type of Hts' with timeslot_list _ _ ?l => set (rs' := l) in * end.
  assert (Hlab : labelled rs' nowSeconds (get_prop meta' "name")).
  { apply merged_labelled;
      [exact Hwb | exact Hwa | apply normalizeRange_ordered | exact Hprev |].
    right. left. split; [|reflexivity]. split; assumption. }
  destruct Hlab as (r1 & Hin1 & Hcov1 & Hname1).
  pose proof (timeslot_list_ordered _ _ _ Hts') as Hord'.
  destruct Hts' as (Harr' & _).
  destruct (findActiveSlot_scan h' next rs' nowSeconds Harr')
    as (l & r & Hfind & Hl & Hin & Hcov); [eauto|].
  exists l, r. split; [exact Hfind|]. split; [exact Hl|]. split; [exact Hcov|].
  rewrite (ordered_covers_unique rs' r r1 nowSeconds Hord' Hin Hin1 Hcov Hcov1).
  exact Hname1.
Qed.

Lemma findActiveSlot_after_addRangeNoOverlap_witness :
  exists l r,
    findActiveSlot [0%nat] 5000 [slot 0 7199 "focus"; slot 3600 7199 "focus"]
    = (Ok (Some l), [slot 0 7199 "focus"; slot 3600 7199 "focus"])
    /\ [slot 0 7199 "focus"; slot 3600 7199 "focus"] !! l = Some r
    /\ covers r 5000
    /\ get_prop (meta r) "name" = get_prop (named "focus") "name".
Proof.
  apply (findActiveSlot_after_addRangeNoOverlap [slot 0 3599 "focus"] [0%nat]
           [slot 0 3599 "focus"] 3600 7199 (named "focus") [0%nat]
           [slot 0 7199 "focus"; slot 3600 7199 "focus"] 5000).
  - repeat split; repeat constructor; simpl; lia.
  - vm_compute. reflexivity.
  - vm_compute. discriminate.
  - vm_compute. discriminate.
Defined.

(* ===================================================================== *)
(** * Inserting into a gap *)
(* ===================================================================== *)

(** A range that lies behind the entries [before] and in front of the
    entries [after] is inserted between them. *)
Lemma addRangeNoOverlap_gap
    (h : heap) (list : list loc) (before after : Datatypes.list TimeslotRange)
    (start' end' : Z) (meta' : jsval) :
  timeslot_list h list (before ++ after) -> valid_meta meta' ->
  let s := fst (normalizeRange start' end') in
  let e := snd (normalizeRange start' end') in
  let new := {| start := s; end_ := e; meta := meta' |} in
  Forall (fun r => end_ r < s) before ->
  Forall (fun r => e < start r) after ->
  exists next h',
    addRangeNoOverlap list start' end' meta' h = (Ok next, h')
    /\ timeslot_list h' next (merged before new after).
Proof.
  intros Hts Hmeta s e new Hb Ha.
  pose proof (timeslot_list_NoDup _ _ _ Hts) as Hnd.
  pose proof (normalizeRange_ordered start' end') as Hse. fold s e in Hse.
  destruct Hts as (Harr & Hwf & Hsorted & Hno).
  destruct (addRangeNoOverlap_run h list _ start' end' meta' Hmeta Harr Hnd Hsorted)
    as (pos & Hle & Hlow & Hhigh & Hres).
  fold s e in Hlow, Hhigh, Hres. fold new in Hres.
  assert (Hb' : Forall (fun r => start r <= s) before).
  { pose proof Hwf as Hwf'. apply Forall_app in Hwf' as [Hwb _].
    rewrite Forall_forall in *. intros r Hin.
    specialize (Hb r Hin). specialize (Hwb r Hin). simpl in *. lia. }
  assert (Ha' : Forall (fun r => s < start r) after).
  { rewrite Forall_forall in *. intros r Hin. specialize (Ha r Hin). simpl in *. lia. }
  assert (Epos : pos = length before).
  { rewrite <- (starts_upto_split s before after Hb' Ha').
    rewrite <- (take_drop pos (before ++ after)) at 1.
    rewrite (starts_upto_split s _ _ Hlow Hhigh).
    symmetry. apply length_take_le. exact Hle. }
  subst pos. clear Hlow Hhigh. rewrite take_app_length, drop_app_length in Hres.
  assert (Hprev : prev_overlaps before s = false).
  { unfold prev_overlaps. destruct (last before) as [a|] eqn:Hlast; [|reflexivity].
    apply last_Some in Hlast as [l' ->]. apply Forall_app in Hb as [_ Hb].
    apply Forall_inv in Hb. apply Z.leb_gt. exact Hb. }
  assert (Hnext : next_overlaps after e = false).
  { unfold next_overlaps. destruct after as [|b rest]; [reflexivity|]. simpl.
    apply Forall_inv in Ha. apply Z.leb_gt. exact Ha. }
  rewrite Hprev, Hnext in Hres.
  destruct Hres as (next & h' & Hrun & Harr' & _).
  exists next, h'. split; [exact Hrun|].
  split; [exact Harr'|]. split; [|split].
  - apply merged_well_formed; assumption.
  - apply merged_sorted; assumption.
  - apply merged_non_overlapping; assumption.
Qed.

Lemma valid_meta_strict_eq meta' v :
  valid_meta meta' -> get_prop meta' "name" = v ->
  strict_eq (get_prop meta' "name") v = true.
Proof.
  intros (fields & name & -> & Hname) <-. simpl. rewrite Hname. simpl.
  apply String.eqb_refl.
Qed.

(** X16. A range with a valid meta that starts after every entry of
    [before] has ended and ends before every entry of [after] starts is
    always accepted, whether or not it is merged with a neighbour, and the
    list returned is again well-formed, sorted and non-overlapping.  When it
    is contiguous with neither neighbour under its own name the list
    returned is the old entries, as they were, with the normalized range as
    an entry of its own between them. *)
Theorem addRangeNoOverlap_between
    (h : heap) (list : list loc) (before after : Datatypes.list TimeslotRange)
    (start' end' : Z) (meta' : jsval) :
  timeslot_list h list (before ++ after) -> valid_meta meta' ->
  let s := fst (normalizeRange start' end') in
  let e := snd (normalizeRange start' end') in
  let new := {| start := s; end_ := e; meta := meta' |} in
  Forall (fun r => end_ r < s) before ->
  Forall (fun r => e < start r) after ->
  exists next h' rs',
    addRangeNoOverlap list start' end' meta' h = (Ok next, h')
    /\ timeslot_list h' next rs'
    /\ ((forall a, last before = Some a -> joins a new = false) ->
        (forall b, head after = Some b -> joins new b = false) ->
        rs' = before ++ new :: after /\ length next = S (length list)).
Proof.
  intros Hts Hmeta s e new Hb Ha.
  destruct (addRangeNoOverlap_gap h list before after start' end' meta' Hts Hmeta Hb Ha)
    as (next & h' & Hrun & Hts').
  fold s e in Hts'. fold new in Hts'.
  exists next, h', (merged before new after).
  split; [exact Hrun|]. split; [exact Hts'|].
  intros Hleft Hright.
  assert (E : merged before new after = before ++ new :: after).
  { unfold merged.
    destruct (merge_left_cases before new) as [[-> _]|(before' & a & -> & E & _)].
    - destruct (merge_right_cases new after) as [[-> _]|(b & rest & -> & E & _)];
        [reflexivity|].
      rewrite (Hright b eq_refl) in E. discriminate.
    - rewrite (Hleft a (last_snoc _ _)) in E. discriminate. }
  split; [exact E|].
  destruct Hts as (Harr & _). destruct Hts' as (Harr' & _). rewrite E in Harr'.
  apply Forall2_length in Harr, Harr'. rewrite Harr', Harr.
  rewrite !length_app. simpl. lia.
Qed.

Lemma addRangeNoOverlap_between_witness :
  (exists next h' rs',
     addRangeNoOverlap [0%nat; 1%nat] 7200 3600 (named "focus")
       [slot 0 3599 "focus"; slot 7201 9000 "focus"]
     = (Ok next, h')
     /\ timeslot_list h' next rs')
  /\ (exists next h',
        addRangeNoOverlap [0%nat; 1%nat] 7200 3600 (named "break")
          [slot 0 3599 "focus"; slot 7201 9000 "focus"]
        = (Ok next, h')
        /\ array_is h' next
             [slot 0 3599 "focus"; slot 3600 7200 "break"; slot 7201 9000 "focus"]
        /\ length next = 3%nat).
Proof.
  split.
  - destruct (addRangeNoOverlap_between
                [slot 0 3599 "focus"; slot 7201 9000 "focus"] [0%nat; 1%nat]
                [slot 0 3599 "focus"] [slot 7201 9000 "focus"]
                7200 3600 (named "focus"))
      as (next & h' & rs' & Hrun & Hts' & _).
    + repeat split; repeat constructor; simpl; lia.
    + exists [("name", JStr "focus")], "focus". split; reflexivity.
    + repeat constructor.
    + repeat constructor.
    + exists next, h', rs'. split; [exact Hrun | exact Hts'].
  - destruct (addRangeNoOverlap_between
                [slot 0 3599 "focus"; slot 7201 9000 "focus"] [0%nat; 1%nat]
                [slot 0 3599 "focus"] [slot 7201 9000 "focus"]
                7200 3600 (named "break"))
      as (next & h' & rs' & Hrun & Hts' & Hshape).
    + repeat split; repeat constructor; simpl; lia.
    + exists [("name", JStr "break")], "break". split; reflexivity.
    + repeat constructor.
    + repeat constructor.
    + destruct Hshape as [E Hlen].
      * intros a [= <-]. reflexivity.
      * intros b [= <-]. reflexivity.
      * exists next, h'. split; [exact Hrun|]. split; [|exact Hlen].
        destruct Hts' as (Harr' & _). rewrite E in Harr'. exact Harr'.
Defined.

(** X17. The merge with the right neighbour.  A range with a valid meta
    that lies behind the entries [l1], ends one second before the entry [b]
    starts, carries the name of [b] and is not merged into its left
    neighbour is accepted, and [b] gives way to one entry that runs from the
    start of the range to the end of [b]; that entry carries the inserted
    meta, not the meta of [b]. *)
Theorem addRangeNoOverlap_right_neighbour
    (h : heap) (list : list loc) (l1 : Datatypes.list TimeslotRange)
    (b : TimeslotRange) (l2 : Datatypes.list TimeslotRange)
    (start' end' : Z) (meta' : jsval) :
  timeslot_list h list (l1 ++ b :: l2) -> valid_meta meta' ->
  let s := fst (normalizeRange start' end') in
  let e := snd (normalizeRange start' end') in
  Forall (fun r => end_ r < s) l1 ->
  e + 1 = start b ->
  get_prop meta' "name" = get_prop (meta b) "name" ->
  (forall a, last l1 = Some a ->
     joins a {| start := s; end_ := e; meta := meta' |} = false) ->
  exists next h',
    addRangeNoOverlap list start' end' meta' h = (Ok next, h')
    /\ array_is h' next
         (l1 ++ {| start := s; end_ := end_ b; meta := meta' |} :: l2)
    /\ length next = length list.
Proof.
  intros Hts Hmeta s e Hb Hend Hname Hleft.
  set (new := {| start := s; end_ := e; meta := meta' |}) in *.
  assert (Ha : Forall (fun r => e < start r) (b :: l2)).
  { pose proof (timeslot_list_ordered _ _ _ Hts) as Hord.
    apply ordered_app_inv in Hord as (_ & Hord & _).
    apply ordered_sorted in Hord. apply StronglySorted_inv in Hord as [_ Hall].
    constructor; [lia|]. rewrite Forall_forall in *. intros r Hin.
    specialize (Hall r Hin). simpl in Hall. lia. }
  destruct (addRangeNoOverlap_gap h list l1 (b :: l2) start' end' meta' Hts Hmeta Hb Ha)
    as (next & h' & Hrun & Harr' & _).
  fold s e in Harr'. fold new in Harr'.
  exists next, h'. split; [exact Hrun|].
  assert (Hjoin : joins new b = true).
  { unfold joins. simpl. rewrite Hend, Z.eqb_refl. simpl.
    apply valid_meta_strict_eq; assumption. }
  assert (E : merged l1 new (b :: l2)
              = l1 ++ {| start := s; end_ := end_ b; meta := meta' |} :: l2).
  { unfold merged.
    destruct (merge_left_cases l1 new) as [[-> _]|(before' & a & -> & E & _)].
    - unfold merge_right. rewrite Hjoin. reflexivity.
    - rewrite (Hleft a (last_snoc _ _)) in E. discriminate. }
  rewrite E in Harr'. split; [exact Harr'|].
  destruct Hts as (Harr & _).
  apply Forall2_length in Harr, Harr'. rewrite Harr', Harr.
  rewrite !length_app. reflexivity.
Qed.

Lemma addRangeNoOverlap_right_neighbour_witness :
  exists next h',
    addRangeNoOverlap [0%nat] 0 3599 (JObj [("name", JStr "focus"); ("tag", JNum 1)])
      [slot 3600 7199 "focus"]
    = (Ok next, h')
    /\ array_is h' next
         ([] ++ {| start := 0; end_ := 7199;
                   meta := JObj [("name", JStr "focus"); ("tag", JNum 1)] |} :: [])
    /\ length next = 1%nat.
Proof.
  apply (addRangeNoOverlap_right_neighbour [slot 3600 7199 "focus"] [0%nat]
           [] (slot 3600 7199 "focus") []
           0 3599 (JObj [("name", JStr "focus"); ("tag", JNum 1)])).
  - repeat split; repeat constructor; simpl; lia.
  - exists [("name", JStr "focus"); ("tag", JNum 1)], "focus". split; reflexivity.
  - constructor.
  - reflexivity.
  - reflexivity.
  - discriminate.
Defined.

(** X18. Only a left neighbour is ever written to: a call whose normalized
    range starts before every entry of a sorted list leaves every object of
    the heap as it was, whether it raises, inserts, or merges with the first
    entry. *)
Theorem addRangeNoOverlap_in_front
    (h : heap) (list : list loc) (rs : Datatypes.list TimeslotRange)
    (start' end' : Z) (meta' : jsval)
    (res : outcome (Datatypes.list loc)) (h' : heap) :
  array_is h list rs -> NoDup list -> sorted_by_start rs ->
  Forall (fun r => fst (normalizeRange start' end') < start r) rs ->
  addRangeNoOverlap list start' end' meta' h = (res, h') ->
  forall l r, h !! l = Some r -> h' !! l = Some r.
Proof.
  intros Harr Hnd Hsorted Hfront Hrun l r Hl.
  destruct (negb (truthy meta') || negb (is_string (get_prop meta' "name")))
    eqn:Hguard.
  { unfold addRangeNoOverlap in Hrun. rewrite Hguard in Hrun.
    injection Hrun as _ <-. exact Hl. }
  pose proof (guard_valid_meta _ Hguard) as Hmeta.
  destruct (addRangeNoOverlap_run h list rs start' end' meta' Hmeta Harr Hnd Hsorted)
    as (pos & Hle & Hlow & _ & Hres).
  destruct (prev_overlaps _ _);
    [rewrite Hres in Hrun; injection Hrun as _ <-; exact Hl|].
  destruct (next_overlaps _ _);
    [rewrite Hres in Hrun; injection Hrun as _ <-; exact Hl|].
  destruct Hres as (next0 & h0 & Hrun0 & _ & _ & Hframe).
  rewrite Hrun0 in Hrun. injection Hrun as _ <-.
  apply Hframe; [exact Hl|].
  assert (Hpos : pos = 0%nat \/ rs = []).
  { destruct pos as [|pos]; [left; reflexivity|]. right.
    destruct rs as [|r0 rs]; [reflexivity|]. exfalso.
    apply Forall_inv in Hfront. simpl in Hlow. apply Forall_inv in Hlow.
    simpl in Hlow. lia. }
  destruct Hpos as [->| ->].
  - rewrite take_0. discriminate.
  - apply Forall2_nil_inv_r in Harr. subst list. rewrite take_nil. discriminate.
Qed.

Lemma addRangeNoOverlap_in_front_witness :
  [slot 3600 7199 "focus"; slot 0 7199 "focus"] !! 0%nat
  = Some (slot 3600 7199 "focus").
Proof.
  apply (addRangeNoOverlap_in_front [slot 3600 7199 "focus"] [0%nat]
           [slot 3600 7199 "focus"] 0 3599 (named "focus") (Ok [1%nat])
           [slot 3600 7199 "focus"; slot 0 7199 "focus"]).
  - repeat constructor.
  - repeat constructor. apply not_elem_of_nil.
  - repeat constructor.
  - repeat constructor.
  - vm_compute. reflexivity.
  - reflexivity.
Defined.

(* ===================================================================== *)
(** * Loading, saving and resetting the store *)
(* ===================================================================== *)

Section StoreFacts.
Context `{JSON}.

(** What is read carries today's date and an array of timeslots. *)
Lemma readStoreForToday_dated (storage : gmap string string) (now : Date) :
  obj_get "date" (readStoreForToday storage now)
  = Some (date_value (getTodayArray now))
  /\ exists items,
       obj_get "timeslots" (readStoreForToday storage now) = Some (JArr items).
Proof.
  unfold readStoreForToday.
  assert (Hreset :
    obj_get "date" (makeDefaultTimeslots now) = Some (date_value (getTodayArray now))
    /\ exists items, obj_get "timeslots" (makeDefaultTimeslots now) = Some (JArr items)).
  { split; [reflexivity | exists []; reflexivity]. }
  destruct (storage !! "timeslots") as [raw|]; [|exact Hreset].
  destruct (String.eqb raw EmptyString); [exact Hreset|].
  destruct (JSON_parse raw) as [parsed|]; [|exact Hreset].
  destruct (isSameDate (get_prop parsed "date") (getTodayArray now)); [|exact Hreset].
  simpl. split.
  - rewrite obj_get_set_ne by discriminate. apply obj_get_set_eq.
  - rewrite obj_get_set_eq.
    destruct (get_prop parsed "timeslots") as [[| | | |items|]|]; eauto.
Qed.

(** X19. Whatever the storage holds and whatever the parser makes of it, the
    store that is read carries today's date and an array of timeslots, and
    the list that the load on mount shows is that array. *)
Theorem readStoreForToday_today (st : AppState) (now : Date) :
  let loaded := readStoreForToday (localStorage st) now in
  obj_get "date" loaded = Some (date_value (getTodayArray now))
  /\ exists items,
       obj_get "timeslots" loaded = Some (JArr items)
       /\ timeslots (mountStore now st) = JArr items.
Proof.
  intros loaded. subst loaded.
  destruct (readStoreForToday_dated (localStorage st) now) as (Hdate & items & Hslots).
  split; [exact Hdate|]. exists items. split; [exact Hslots|].
  unfold mountStore, writeStore. simpl. rewrite Hslots. reflexivity.
Qed.

(** X20. Saving touches one key of the storage, puts the same text into the
    storage and into the debug view, and forgets what was saved before: two
    saves in a row leave the state of the second alone. *)
Theorem writeStore_overwrites (store1 store2 : jsobject) (st : AppState) :
  writeStore store2 (writeStore store1 st) = writeStore store2 st
  /\ localStorage (writeStore store1 st) !! "timeslots"
     = Some (timeslotsDebug (writeStore store1 st))
  /\ forall key, key <> "timeslots" ->
       localStorage (writeStore store1 st) !! key = localStorage st !! key.
Proof.
  unfold writeStore. simpl. split; [|split].
  - rewrite insert_insert_eq. reflexivity.
  - apply lookup_insert_eq.
  - intros key Hkey. apply lookup_insert_ne. congruence.
Qed.

(** The empty text is not JSON: [JSON.parse] throws on it. *)
Hypothesis parse_empty : JSON_parse EmptyString = None.

(** A store of today that the JSON functions carry through unchanged reads
    back as it was saved. *)
Lemma readStoreForToday_saved
    (store : jsobject) (st : AppState) (now : Date) (items : list jsval) :
  JSON_parse (JSON_stringify (JObj store)) = Some (JObj store) ->
  obj_get "date" store = Some (date_value (getTodayArray now)) ->
  obj_get "timeslots" store = Some (JArr items) ->
  readStoreForToday (localStorage (writeStore store st)) now = store.
Proof.
  intros Hround Hdate Hslots.
  unfold writeStore, readStoreForToday. simpl localStorage.
  rewrite lookup_insert_eq.
  destruct (String.eqb_spec (JSON_stringify (JObj store)) EmptyString) as [E|_].
  { rewrite E in Hround. congruence. }
  rewrite Hround.
  assert (Hsame : isSameDate (get_prop (JObj store) "date") (getTodayArray now) = true)
    by (apply isSameDate_dated; exact Hdate).
  rewrite Hsame. simpl. rewrite Hslots.
  rewrite (obj_set_same "date") by exact Hdate.
  apply obj_set_same. exact Hslots.
Qed.

(** X21. The load on mount settles the storage: when the JSON functions
    carry the loaded store through unchanged, the text that the mount writes
    reads back as that store, the list shown is the list of that store, and
    mounting again changes nothing. *)
Theorem mountStore_settles (now : Date) (st : AppState) :
  let fresh := readStoreForToday (localStorage st) now in
  JSON_parse (JSON_stringify (JObj fresh)) = Some (JObj fresh) ->
  readStoreForToday (localStorage (mountStore now st)) now = fresh
  /\ obj_get "timeslots" fresh = Some (timeslots (mountStore now st))
  /\ mountStore now (mountStore now st) = mountStore now st.
Proof.
  intros fresh Hround.
  destruct (readStoreForToday_dated (localStorage st) now) as (Hdate & items & Hslots).
  fold fresh in Hdate, Hslots.
  assert (Hread : readStoreForToday (localStorage (mountStore now st)) now = fresh).
  { unfold mountStore. fold fresh.
    exact (readStoreForToday_saved fresh st now items Hround Hdate Hslots). }
  split; [exact Hread|]. split.
  - unfold mountStore. fold fresh. unfold writeStore. simpl.
    rewrite Hslots. reflexivity.
  - unfold mountStore at 1. rewrite Hread. unfold mountStore. fold fresh.
    unfold writeStore. simpl. rewrite insert_insert_eq. reflexivity.
Qed.

(** X22. After a reset the list shown is empty, and when the JSON functions
    carry the empty store of the day through unchanged the storage reads
    back as that empty store the same day. *)
Theorem resetTimeslots_empties (now : Date) (st : AppState) :
  JSON_parse (JSON_stringify (JObj (makeDefaultTimeslots now)))
  = Some (JObj (makeDefaultTimeslots now)) ->
  timeslots (resetTimeslots now st) = JArr []
  /\ readStoreForToday (localStorage (resetTimeslots now st)) now
     = makeDefaultTimeslots now.
Proof.
  intros Hround. split; [reflexivity|].
  unfold resetTimeslots.
  apply (readStoreForToday_saved (makeDefaultTimeslots now) st now []);
    [exact Hround | reflexivity | reflexivity].
Qed.

(** X23. What was saved under another date is not carried over: when the
    JSON functions carry a store through unchanged and its date is not
    today's, the storage reads back as the empty store of today, the store
    of exactly two fields, the date of today and an empty list of
    timeslots; no field of the saved store is in it. *)
Theorem writeStore_other_day (store : jsobject) (st : AppState) (now : Date) :
  JSON_parse (JSON_stringify (JObj store)) = Some (JObj store) ->
  obj_get "date" store <> Some (date_value (getTodayArray now)) ->
  readStoreForToday (localStorage (writeStore store st)) now
  = [("date", date_value (getTodayArray now)); ("timeslots", JArr [])].
Proof.
  intros Hround Hdate.
  unfold writeStore, readStoreForToday, makeDefaultTimeslots. simpl localStorage.
  rewrite lookup_insert_eq.
  destruct (String.eqb (JSON_stringify (JObj store)) EmptyString); [reflexivity|].
  rewrite Hround.
  destruct (isSameDate (get_prop (JObj store) "date") (getTodayArray now)) eqn:E;
    [|reflexivity].
  apply isSameDate_dated in E. contradiction.
Qed.

End StoreFacts.

Lemma mountStore_settles_witness :
  let now := day_of 2 10 2026 in
  let st := {| localStorage := stored (MiniJSON.print (JObj (focus_store 2)));
               timeslotsDebug := EmptyString; timeslots := JNull |} in
  let fresh := @readStoreForToday MiniJSON.json (localStorage st) now in
  @readStoreForToday MiniJSON.json (localStorage (@mountStore MiniJSON.json now st)) now
  = fresh
  /\ obj_get "timeslots" fresh = Some (timeslots (@mountStore MiniJSON.json now st))
  /\ @mountStore MiniJSON.json now (@mountStore MiniJSON.json now st)
     = @mountStore MiniJSON.json now st.
Proof.
  intros now st.
  apply (@mountStore_settles MiniJSON.json eq_refl now st).
  vm_compute. reflexivity.
Defined.

Lemma resetTimeslots_empties_witness :
  let now := day_of 2 10 2026 in
  let st := {| localStorage := stored (MiniJSON.print (JObj (focus_store 2)));
               timeslotsDebug := EmptyString; timeslots := JNull |} in
  timeslots (@resetTimeslots MiniJSON.json now st) = JArr []
  /\ @readStoreForToday MiniJSON.json
       (localStorage (@resetTimeslots MiniJSON.json now st)) now
     = makeDefaultTimeslots now.
Proof.
  intros now st.
  apply (@resetTimeslots_empties MiniJSON.json eq_refl now st).
  vm_compute. reflexivity.
Defined.

Lemma writeStore_other_day_witness :
  let st := {| localStorage := ∅; timeslotsDebug := EmptyString; timeslots := JNull |} in
  @readStoreForToday MiniJSON.json
    (localStorage (@writeStore MiniJSON.json (focus_store 2) st)) (day_of 3 10 2026)
  = [("date", JArr [JNum 3; JNum 10; JNum 2026]); ("timeslots", JArr [])].
Proof.
  intros st.
  apply (@writeStore_other_day MiniJSON.json (focus_store 2) st (day_of 3 10 2026)).
  - vm_compute. reflexivity.
  - discriminate.
Defined.

(* ===================================================================== *)
(** * Dates and the hash of a name *)
(* ===================================================================== *)

(** X24. The date array of one moment passes the date test of another
    moment exactly when the two fall on the same day of the same month of
    the same year. *)
Theorem isSameDate_getTodayArray (saved now : Date) :
  isSameDate (Some (date_value (getTodayArray saved))) (getTodayArray now) = true
  <-> getDate saved = getDate now
      /\ getMonth saved = getMonth now
      /\ getFullYear saved = getFullYear now.
Proof.
  unfold getTodayArray, date_value, isSameDate, strict_eq.
  rewrite !andb_true_iff, !Z.eqb_eq. tauto.
Qed.

(** X25. However long the name, the hash the loop leaves is a signed 32-bit
    integer, a further character takes it one round further, and the hue is
    a whole number of degrees in [[0, 359]]. *)
Theorem name_hash_int32 (name : list Z) (code : Z) (isPast isRunning : bool) :
  Forall (fun c => 0 <= c < 2 ^ 16) name ->
  - 2 ^ 31 <= name_hash name < 2 ^ 31
  /\ name_hash (name ++ [code]) = hash_step (name_hash name) code
  /\ 0 <= hue (colorParts name isPast isRunning) < 360.
Proof.
  intros Hname. split; [|split].
  - unfold name_hash. change 5381 with (signed32 5381).
    destruct (hash_from_djb2 name 5381 ltac:(lia) Hname) as [-> Hrange].
    apply signed32_range. exact Hrange.
  - unfold name_hash, hash_from. rewrite fold_left_app. reflexivity.
  - unfold colorParts. simpl. apply Z.mod_pos_bound. lia.
Qed.

Lemma name_hash_int32_witness :
  - 2 ^ 31 <= name_hash (code_units "focus") < 2 ^ 31
  /\ name_hash (code_units "focus" ++ [115])
     = hash_step (name_hash (code_units "focus")) 115
  /\ 0 <= hue (colorParts (code_units "focus") false false) < 360.
Proof.
  apply (name_hash_int32 (code_units "focus") 115 false false).
  repeat constructor; simpl; lia.
Defined.
